(** * dagology: metrics and causal set generators

    A shallow embedding of [algorithms/metrics.py] and
    [dagology/generators/causal_set.py].

    Conventions of the embedding.
    - A numpy/Python float is a real number ([R]).  The two operations of the
      source that can leave the reals ([/] by a zero divisor, [np.arccos]
      outside [[-1,1]]) yield [None], standing for numpy's [nan]; arrays that
      can hold such values have entries of type [option R].
    - A Python exception is a value of [exn]; a call either returns or raises
      ([outcome]).  An [assert] that fails raises [AssertionError] with the
      message written in the source.
    - Lists that the source mutates in place are threaded through the call:
      the function returns the final contents next to its outcome.
    - [np.random] is a global generator; its state is the stream of the values
      it will hand out next ([rng]).
    - A [while] loop without a bound takes a fuel argument, the number of
      times it may test its condition; [OutOfFuel] means the loop was still
      running when the fuel ran out.  Only the two rejection samplers can
      produce it. *)

From Stdlib Require Import Reals Lra Lia.
From stdpp Require Import base option list strings gmap.

Open Scope R_scope.

(** ** Python values and exceptions *)

Inductive exn : Type :=
| AssertionError (msg : string)
| IndexError
| ValueError
| UnboundLocalError (name : string).

Inductive outcome (A : Type) : Type :=
| Return (a : A)
| Raise (e : exn)
| OutOfFuel.
Arguments Return {A} a.
Arguments Raise {A} e.
Arguments OutOfFuel {A}.

Definition bind {A B} (m : outcome A) (k : A -> outcome B) : outcome B :=
  match m with
  | Return a => k a
  | Raise e => Raise e
  | OutOfFuel => OutOfFuel
  end.

Notation "x <- m ;; k" := (bind m (fun x => k))
  (at level 100, m at next level, right associativity, only parsing).

(** [l[i]] for a non-negative index. *)
Definition getitem {A} (l : list A) (i : nat) : outcome A :=
  match l !! i with
  | Some a => Return a
  | None => Raise IndexError
  end.

(** [l[-1]] *)
Definition getlast {A} (l : list A) : outcome A :=
  match length l with
  | O => Raise IndexError
  | S n => getitem l n
  end.

(** [l[i] = v] for a non-negative index. *)
Definition setitem {A} (l : list A) (i : nat) (v : A) : outcome (list A) :=
  if decide (i < length l)%nat then Return (<[i := v]> l) else Raise IndexError.

(** [[f(i) for i in l]], stopping at the first exception. *)
Fixpoint comprehension {A B} (f : A -> outcome B) (l : list A) : outcome (list B) :=
  match l with
  | [] => Return []
  | a :: l' => b <- f a ;; bs <- comprehension f l' ;; Return (b :: bs)
  end.

(** [for i in l: acc = body(i, acc)], stopping at the first exception. *)
Fixpoint for_loop {A S} (body : A -> S -> outcome S) (l : list A) (acc : S) : outcome S :=
  match l with
  | [] => Return acc
  | a :: l' => acc' <- body a acc ;; for_loop body l' acc'
  end.

(** Code that also reads and writes a state [S] (the random generator, a list
    object): the state survives an exception. *)
Definition stm (S A : Type) : Type := S -> outcome A * S.

Definition st_ret {S A} (a : A) : stm S A := fun s => (Return a, s).

Definition st_bind {S A B} (m : stm S A) (k : A -> stm S B) : stm S B :=
  fun s =>
    match m s with
    | (Return a, s') => k a s'
    | (Raise e, s') => (Raise e, s')
    | (OutOfFuel, s') => (OutOfFuel, s')
    end.

Definition lift {S A} (o : outcome A) : stm S A := fun s => (o, s).

Notation "x <~ m ;; k" := (st_bind m (fun x => k))
  (at level 100, m at next level, right associativity, only parsing).

Fixpoint st_for {A S Acc} (body : A -> Acc -> stm S Acc) (l : list A) (acc : Acc)
  : stm S Acc :=
  match l with
  | [] => st_ret acc
  | a :: l' => acc' <~ body a acc ;; st_for body l' acc'
  end.

(** [range(lo, hi)] *)
Definition range (lo hi : nat) : list nat := seq lo (hi - lo).

(** Python's builtin [sum]: a left fold starting at 0. *)
Definition py_sum (l : list R) : R := fold_left Rplus l 0.

(** [np.sum] of a one-dimensional array. *)
Definition np_sum (l : list R) : R := foldr Rplus 0 l.

(** The builtin [min] of three floats. *)
Definition min3 (a b c : R) : R := Rmin a (Rmin b c).

(** Truth value of an entry of a periodic spec: [None] and [0.0] are false. *)
Definition truthy (v : option R) : bool :=
  match v with
  | None => false
  | Some l => if Req_dec_T l 0 then false else true
  end.

(** ** numpy floats that may be [nan] *)

Definition npfloat : Type := option R.

(** [a / b] on floats: a zero divisor leaves the reals.  At both divisions of
    the source a zero divisor is the norm of a zero vector, so that the
    quotient is [0/0], numpy's [nan]. *)
Definition np_divide (a b : R) : npfloat :=
  if Req_dec_T b 0 then None else Some (a / b).

(** [np.arccos]: [nan] outside [[-1, 1]]. *)
Definition np_arccos (v : npfloat) : npfloat :=
  match v with
  | Some r => if Rle_dec (-1) r then if Rle_dec r 1 then Some (acos r) else None else None
  | None => None
  end.

Definition np_cos (v : npfloat) : npfloat := option_map cos v.
Definition np_sin (v : npfloat) : npfloat := option_map sin v.

Definition fadd (a b : npfloat) : npfloat :=
  match a, b with
  | Some u, Some v => Some (u + v)
  | _, _ => None
  end.

Definition fmul (a b : npfloat) : npfloat :=
  match a, b with
  | Some u, Some v => Some (u * v)
  | _, _ => None
  end.

Definition fsub (a b : npfloat) : npfloat :=
  match a, b with
  | Some u, Some v => Some (u - v)
  | _, _ => None
  end.

(** [a / b] when the operands themselves may be [nan]. *)
Definition fdiv (a b : npfloat) : npfloat :=
  match a, b with
  | Some u, Some v => np_divide u v
  | _, _ => None
  end.

(** [np.sqrt]: [nan] on a negative number. *)
Definition np_sqrt (v : npfloat) : npfloat :=
  match v with
  | Some r => if Rlt_dec r 0 then None else Some (sqrt r)
  | None => None
  end.

(** [np.arccosh]: [nan] below 1. *)
Definition np_arccosh (y : R) : npfloat :=
  if Rle_dec 1 y then Some (ln (y + sqrt (y * y - 1))) else None.

(** [np.sum] of an array that may hold [nan]. *)
Definition np_sum_nan (l : list npfloat) : npfloat := foldr fadd (Some 0) l.

(** [x += y] on one-dimensional arrays: [y] must have the shape of [x] or a
    single entry, which is then added to every entry of [x]. *)
Definition iadd (x y : list npfloat) : outcome (list npfloat) :=
  if decide (length y = length x) then Return (zip_with fadd x y)
  else match y with
       | [v] => Return (map (fun u => fadd u v) x)
       | _ => Raise ValueError
       end.

(** [X[:, j] = f(X[:, j])], entry by entry. *)
Definition update_column {A} (j : nat) (f : A -> A) (X : list (list A))
  : outcome (list (list A)) :=
  comprehension (fun row => v <- getitem row j ;; setitem row j (f v)) X.

(** [np.dot] of two one-dimensional arrays of the same length. *)
Definition np_dot (x y : list npfloat) : npfloat :=
  foldr fadd (Some 0) (zip_with fmul x y).

(** ** algorithms/metrics.py *)

Module Metrics.

Definition msg_euclidean : string :=
  "ERROR - vectors in Euclidean metric have different lengths".
Definition msg_spherical : string :=
  "ERROR - vectors in spherical metric have different lengths".
Definition msg_minkowski : string :=
  "ERROR - vectors in Minkowski metric have different lengths".

Definition euclidean (x y : list R) : outcome R :=
  if decide (length x = length y) then
    let d := zip_with Rminus x y in
    Return (np_sum (zip_with Rmult d d))
  else Raise (AssertionError msg_euclidean).

(** One turn of the loop of [angular_to_cartesian]:
    [x[i] *= cos(a[i])], then [x[i+1:] *= sin(a[i])]. *)
Definition angular_to_cartesian_step (a : list npfloat) (i : nat) (x : list npfloat)
  : outcome (list npfloat) :=
  ai <- getitem a i ;;
  xi <- getitem x i ;;
  x1 <- setitem x i (fmul xi (np_cos ai)) ;;
  Return (take (S i) x1 ++ map (fun v => fmul v (np_sin ai)) (drop (S i) x1)).

Definition angular_to_cartesian (a : list npfloat) : outcome (list npfloat) :=
  let D := length a in
  let x := replicate (D + 1) (Some 1) in
  for_loop (angular_to_cartesian_step a) (range 0 D) x.

(** [np.sqrt(np.sum((a[i:])**2))] *)
Definition norm_from (a : list R) (i : nat) : R :=
  sqrt (np_sum (map (fun v => v * v) (drop i a))).

Definition cartesian_to_angular_step (a : list R) (i : nat) (x : list npfloat)
  : outcome (list npfloat) :=
  ai <- getitem a i ;;
  let psi := np_arccos (np_divide ai (norm_from a i)) in
  setitem x i psi.

Definition cartesian_to_angular (a : list R) : outcome (list npfloat) :=
  let D := length a in
  match D with
  | O => Raise ValueError (* np.zeros(-1) *)
  | S _ =>
    x <- for_loop (cartesian_to_angular_step a) (range 0 (D - 1))
                  (replicate (D - 1) (Some 0)) ;;
    al <- getlast a ;;
    if Rlt_dec al 0
    then xl <- getlast x ;;
         setitem x (length x - 1) (fsub (Some (2 * PI)) xl)
    else Return x
  end.

Definition spherical (x_ y_ : list R) : outcome npfloat :=
  if decide (length x_ = length y_) then
    x <- angular_to_cartesian (map Some x_) ;;
    y <- angular_to_cartesian (map Some y_) ;;
    let cos_psi := np_dot x y in
    let psi := np_arccos cos_psi in
    Return psi
  else Raise (AssertionError msg_spherical).

Definition minkowski (x y : list R) : outcome R :=
  if decide (length x = length y) then
    x0 <- getitem x 0 ;;
    y0 <- getitem y 0 ;;
    let dt := x0 - y0 in
    let dt2 := dt * dt in
    dx <- comprehension
      (fun i => xi <- getitem x i ;; yi <- getitem y i ;; Return (xi - yi))
      (range 1 (length x)) ;;
    let dx2 := zip_with Rmult dx dx in
    let dx2sum := py_sum dx2 in
    Return (dx2sum - dt2)
  else Raise (AssertionError msg_minkowski).

(** The local variables [dx2] and [dz2] of [minkowski_periodic]; [None] is an
    unbound name.  Nothing assigns [dz2] before the loop. *)
Record mp_locals : Type := MpLocals { mp_dx2 : option R; mp_dz2 : option R }.

Definition minkowski_periodic_body (x y : list R) (L : list (option R))
    (d : nat) (loc : mp_locals) : outcome mp_locals :=
  L_d <- getitem L (d - 1) ;;
  xd <- getitem x d ;;
  yd <- getitem y d ;;
  let dx2 :=
    match L_d with
    | Some l =>
        if truthy L_d
        then min3 ((xd - yd) * (xd - yd))
                  ((xd - yd + l) * (xd - yd + l))
                  ((xd - yd - l) * (xd - yd - l))
        else (xd - yd) * (xd - yd)
    | None => (xd - yd) * (xd - yd)
    end in
  (* dz2 += dx2 *)
  match mp_dz2 loc with
  | None => Raise (UnboundLocalError "dz2")
  | Some dz2 => Return (MpLocals (Some dx2) (Some (dz2 + dx2)))
  end.

(** [while len(L) < n: L.append(None)] *)
Definition pad_with_None (n : nat) (L : list (option R)) : list (option R) :=
  Nat.iter (n - length L) (fun l => l ++ [None]) L.

(** [minkowski_periodic x y L] gives the outcome of the call and the contents
    of the list object [L] when the call ends. *)
Definition minkowski_periodic (x y : list R) (L : list (option R))
  : outcome R * list (option R) :=
  let D := length x in
  if decide (length y = D) then
    let L' := pad_with_None (D - 1) L in
    (x0 <- getitem x 0 ;;
     y0 <- getitem y 0 ;;
     let dt := x0 - y0 in
     let dt2 := dt * dt in
     let ds2 := -1 * dt2 in
     _ <- for_loop (minkowski_periodic_body x y L') (range 1 D) (MpLocals None None) ;;
     Return ds2,
     L')
  else (Raise (AssertionError msg_minkowski), L).

(** A call site of [minkowski_periodic].  The default [L=[]] is one list
    object, built when the function is defined and kept by the function: a
    call without [L] works on that object, a call with [L] on the caller's.
    The state is the pair of the caller's list (when there is one) and of the
    default list. *)
Definition minkowski_periodic_call (x y : list R) (L : option (list (option R)))
    (default_L : list (option R))
  : outcome R * (option (list (option R)) * list (option R)) :=
  match L with
  | Some l => let '(o, l') := minkowski_periodic x y l in (o, (Some l', default_L))
  | None => let '(o, d') := minkowski_periodic x y default_L in (o, (None, d'))
  end.

Definition de_sitter (x y : list R) : outcome npfloat :=
  x0 <- getitem x 0 ;;
  y0 <- getitem y 0 ;;
  let dt := x0 - y0 in
  let dt2 := dt * dt in
  dx <- spherical (drop 1 x) (drop 1 y) ;;
  let dx2 := fmul dx dx in
  Return (fsub dx2 (Some dt2)).

(** [np.sqrt(np.sum((a[i:])**2))] on an array that may hold [nan]. *)
Definition norm_from_nan (a : list npfloat) (i : nat) : npfloat :=
  np_sqrt (np_sum_nan (map (fun v => fmul v v) (drop i a))).

Definition cartesian_to_angular_nan_step (a : list npfloat) (i : nat) (x : list npfloat)
  : outcome (list npfloat) :=
  ai <- getitem a i ;;
  let psi := np_arccos (fdiv ai (norm_from_nan a i)) in
  setitem x i psi.

(** [cartesian_to_angular] on an array that may hold [nan], as
    [sphere_surface_angular] calls it; a comparison with [nan] is false. *)
Definition cartesian_to_angular_nan (a : list npfloat) : outcome (list npfloat) :=
  let D := length a in
  match D with
  | O => Raise ValueError (* np.zeros(-1) *)
  | S _ =>
    x <- for_loop (cartesian_to_angular_nan_step a) (range 0 (D - 1))
                  (replicate (D - 1) (Some 0)) ;;
    al <- getlast a ;;
    if match al with Some v => if Rlt_dec v 0 then true else false | None => false end
    then xl <- getlast x ;;
         setitem x (length x - 1) (fsub (Some (2 * PI)) xl)
    else Return x
  end.

(** [S[i, j] = metric(R[i, :], R[j, :])] *)
Definition sq_separations_entry (Rm : list (list R))
    (metric : list R -> list R -> outcome R) (i j : nat) (S : list (list R))
  : outcome (list (list R)) :=
  Ri <- getitem Rm i ;;
  Rj <- getitem Rm j ;;
  v <- metric Ri Rj ;;
  Si <- getitem S i ;;
  Si' <- setitem Si j v ;;
  setitem S i Si'.

(** [sq_separations(R, metric)], for a metric with real values. *)
Definition sq_separations (Rm : list (list R)) (metric : list R -> list R -> outcome R)
  : outcome (list (list R)) :=
  let N := length Rm in
  let S := replicate N (replicate N 0) in
  for_loop (fun i S => for_loop (sq_separations_entry Rm metric i) (range 0 N) S)
           (range 0 N) S.

End Metrics.

(** ** The collaborators of the generators: [np.random] and [nx.DiGraph] *)

(** The state of the global generator: the values it hands out next. *)
Definition rng : Type := nat -> R.

(** [np.random.random()] *)
Definition np_random_random : stm rng R :=
  fun g => (Return (g O), fun n => g (S n)).

(** [np.random.random(k)], [np.random.rand(k)]: [k] draws. *)
Definition np_random_array (k : nat) : stm rng (list R) :=
  fun g => (Return (map g (seq 0 k)), fun n => g (k + n)%nat).

(** [np.random.random((N, D))], [np.random.randn(N, D)]: [N * D] draws, filled
    row by row. *)
Definition np_random_matrix (N D : nat) : stm rng (list (list R)) :=
  fun g => (Return (map (fun i => map (fun j => g (i * D + j)%nat) (seq 0 D)) (seq 0 N)),
            fun n => g (N * D + n)%nat).

(** A directed graph of networkx: the nodes with their [position] attribute
    (absent for a node that only an edge introduced) and the set of edges. *)
Record DiGraph : Type := MkDiGraph {
  nodes : gmap nat (option (list R));
  edges : gset (nat * nat)
}.

Definition empty_graph : DiGraph := MkDiGraph ∅ ∅.

(** [G.add_node(i, position=pos)] *)
Definition add_node (i : nat) (pos : list R) (G : DiGraph) : DiGraph :=
  MkDiGraph (<[i := Some pos]> (nodes G)) (edges G).

(** [G.add_edge(u, v)]: end points that are not nodes yet become nodes. *)
Definition add_edge (e : nat * nat) (G : DiGraph) : DiGraph :=
  let touch (u : nat) (m : gmap nat (option (list R))) :=
    match m !! u with Some _ => m | None => <[u := None]> m end in
  MkDiGraph (touch e.2 (touch e.1 (nodes G))) ({[ e ]} ∪ edges G).

(** [G.add_edges_from(edgelist)] *)
Definition add_edges_from (edgelist : list (nat * nat)) (G : DiGraph) : DiGraph :=
  fold_left (fun G e => add_edge e G) edgelist G.

(** ** dagology/generators/causal_set.py *)

Module CausalSet.

(** What [causal_set_graph] can change: the generator and, when [periodic] is
    a list, the contents of that list object. *)
Definition cs_state : Type := rng * option (list (option R)).

Definition with_rng {T A} (m : stm rng A) : stm (rng * T) A :=
  fun s => let '(o, g') := m s.1 in (o, (g', s.2)).

(** Truth value of the argument [periodic]: [None] and [[]] are false. *)
Definition periodic_given (periodic : option (list (option R))) : bool :=
  match periodic with
  | Some (_ :: _) => true
  | _ => false
  end.

(** [dag.minkowski_periodic(x, y, periodic)], on the caller's list object. *)
Definition call_minkowski_periodic (x y : list R) : stm cs_state R :=
  fun s =>
    match s.2 with
    | Some L => let '(o, L') := Metrics.minkowski_periodic x y L in (o, (s.1, Some L'))
    | None => let '(o, _) := Metrics.minkowski_periodic x y [] in (o, s)
    end.

(** The body of the inner loop: the tests on the pair [(i, j)]. *)
Definition causal_set_graph_pair (Rm : list (list R)) (p : R) (i j : nat)
    (edgelist : list (nat * nat)) : stm cs_state (list (nat * nat)) :=
  Ri <~ lift (getitem Rm i) ;;
  Ri0 <~ lift (getitem Ri 0) ;;
  Rj <~ lift (getitem Rm j) ;;
  Rj0 <~ lift (getitem Rj 0) ;;
  if Rlt_dec Ri0 Rj0 then
    proceed <~ (if Req_dec_T p 1 then st_ret true
                else u <~ with_rng np_random_random ;;
                     st_ret (if Rgt_dec p u then true else false)) ;;
    if (proceed : bool) then
      fun s =>
        if periodic_given s.2 then
          (sep <~ call_minkowski_periodic Ri Rj ;;
           st_ret (if Rlt_dec sep 0 then edgelist ++ [(i, j)] else edgelist)) s
        else
          (sep <~ lift (Metrics.minkowski Ri Rj) ;;
           st_ret (if Rlt_dec sep 0 then edgelist ++ [(i, j)] else edgelist)) s
    else st_ret edgelist
  else st_ret edgelist.

(** The body of the outer loop. *)
Definition causal_set_graph_row (Rm : list (list R)) (p : R) (N : nat) (i : nat)
    (acc : DiGraph * list (nat * nat)) : stm cs_state (DiGraph * list (nat * nat)) :=
  Ri <~ lift (getitem Rm i) ;;
  let G := add_node i Ri acc.1 in
  edgelist <~ st_for (causal_set_graph_pair Rm p i) (range 0 N) acc.2 ;;
  st_ret (G, edgelist).

(** [causal_set_graph(R, p, periodic)]: the coordinate matrix is the list of
    its rows, [N] their number. *)
Definition causal_set_graph (Rm : list (list R)) (p : R)
    (periodic : option (list (option R))) (g : rng)
  : outcome DiGraph * cs_state :=
  let N := length Rm in
  (acc <~ st_for (causal_set_graph_row Rm p N) (range 0 N) (empty_graph, []) ;;
   st_ret (add_edges_from acc.2 acc.1)) (g, periodic).

(** [a = np.zeros(D); a[1:] = 0.5] *)
Definition interval_start (D : nat) : list R :=
  take 1 (replicate D 0) ++ replicate (D - 1) 0.5.

(** [b = np.zeros(D); b[0] = 1.; b[1:] = 0.5] *)
Definition interval_end (D : nat) : outcome (list R) :=
  b <- setitem (replicate D 0) 0 1 ;;
  Return (take 1 b ++ replicate (D - 1) 0.5).

(** The condition of the [while] loop of [minkowski_interval_scatter]; [or]
    does not evaluate its second operand when the first is true. *)
Definition outside_interval (a b row : list R) : outcome bool :=
  s1 <- Metrics.minkowski a row ;;
  if Rgt_dec s1 0 then Return true
  else s2 <- Metrics.minkowski row b ;;
       Return (if Rgt_dec s2 0 then true else false).

(** [while outside(R[i]): R[i, :] = np.random.random(D)] *)
Fixpoint resample_row (fuel : nat) (D : nat) (a b : list R) (i : nat)
    (Rm : list (list R)) : stm rng (list (list R)) :=
  match fuel with
  | O => lift OutOfFuel
  | S fuel' =>
    Ri <~ lift (getitem Rm i) ;;
    out <~ lift (outside_interval a b Ri) ;;
    if (out : bool) then
      row <~ np_random_array D ;;
      Rm' <~ lift (setitem Rm i row) ;;
      resample_row fuel' D a b i Rm'
    else st_ret Rm
  end.

Definition minkowski_interval_scatter (fuel : nat) (N D : nat) (fix_ends : bool)
  : stm rng (list (list R)) :=
  Rm <~ np_random_matrix N D ;;
  let a := interval_start D in
  b <~ lift (interval_end D) ;;
  Rm_start <~ (if fix_ends then
                 R0 <~ lift (setitem Rm 0 a) ;;
                 R1 <~ lift (setitem R0 1 b) ;;
                 st_ret (R1, 2%nat)
               else st_ret (Rm, 0%nat)) ;;
  st_for (resample_row fuel D a b) (range Rm_start.2 N) Rm_start.1.

Definition msg_minkowski_interval_map : string :=
  "ERROR - minkowski_interval_map not implemented yet".

Definition minkowski_interval_map (N D : nat) (fix_ends : bool)
  : stm rng (list (list R)) :=
  lift (Raise (AssertionError msg_minkowski_interval_map)).

Definition minkowski_interval (fuel : nat) (N D : nat) (fix_ends : bool) (method : string)
  : stm rng (list (list R)) :=
  if String.eqb method "scatter" then minkowski_interval_scatter fuel N D fix_ends
  else if String.eqb method "map" then minkowski_interval_map N D fix_ends
  else lift (Raise (AssertionError
         ("Invalid method " +:+ method +:+ " given to minkowski_interval"))).

(** [R / R_norm]: every entry of a row over the norm of the row. *)
Definition sphere_surface_cartesian (N D : nat) : stm rng (list (list npfloat)) :=
  Rm <~ np_random_matrix N (D + 1) ;;
  let R_sq := map (fun row => zip_with Rmult row row) Rm in
  let R_sq_sum := map (fun row => sqrt (np_sum row)) R_sq in
  st_ret (zip_with (fun row R_norm => map (fun v => np_divide v R_norm) row) Rm R_sq_sum).

Definition sphere_surface_angular (N D : nat) : stm rng (list (list npfloat)) :=
  X <~ sphere_surface_cartesian N D ;;
  let R0 := replicate N (replicate D (Some 0)) in
  lift (for_loop
          (fun i Rm =>
             Xi <- getitem X i ;;
             angles <- Metrics.cartesian_to_angular_nan Xi ;;
             Ri <- getitem Rm i ;;
             Ri' <- iadd Ri angles ;;
             setitem Rm i Ri')
          (range 0 N) R0).

(** [hyperbolic_disk(N, R, a)]: the radius of the disk is [Rd]. *)
Definition hyperbolic_disk (N : nat) (Rd a : R) : stm rng (list (list npfloat)) :=
  X0 <~ np_random_matrix N 2 ;;
  let X := map (map Some) X0 in
  X1 <~ lift (update_column 1 (fun v => fmul v (Some (2 * PI))) X) ;;
  let A_R := cosh (Rd * a) - 1 in
  lift (update_column 0
          (fun v => fdiv (v ≫= fun u => np_arccosh (u * A_R + 1)) (Some a)) X1).

Definition msg_KT2 : string := "KT^2 must be between 0 and 4 for this method".

(** [x ** (-D)] *)
Definition pow_neg (x : R) (D : nat) : R := / (x ^ D).

(** One batch of the rejection method of [de_sitter_interval_scatter]: the
    rows of a Minkowski interval that pass the test [m < sigma]. *)
Definition de_sitter_batch (fuel : nat) (N D : nat) (KT2 : R) (fix_ends : bool)
  : stm rng (list (list R)) :=
  Rm <~ minkowski_interval fuel N D fix_ends "scatter" ;;
  (* R[:, 1:] -= 0.5 *)
  let Rc := map (fun row => take 1 row ++ map (fun v => v - 0.5) (drop 1 row)) Rm in
  let M := pow_neg (1 - KT2 * 0.25) D in
  u <~ np_random_array N ;;
  let m := map (fun v => v * M) u in
  S <~ lift (comprehension
         (fun row => r0 <- getitem row 0 ;;
                     Return (-1 * (r0 * r0) + np_sum (map (fun v => v * v) (drop 1 row))))
         Rc) ;;
  let sigma := map (fun s => pow_neg (1 + 0.25 * KT2 * s) D) S in
  let mask := zip_with (fun mi si => if Rlt_dec mi si then true else false) m sigma in
  st_ret (map fst (filter (fun rb => rb.2 = true) (zip Rc mask))).

(** [while Z.shape[0] < N: Z = np.concatenate([Z, batch])] *)
Fixpoint de_sitter_fill (fuel : nat) (N D : nat) (KT2 : R) (fix_ends : bool)
    (Z : list (list R)) : stm rng (list (list R)) :=
  match fuel with
  | O => lift OutOfFuel
  | S fuel' =>
    if decide (length Z < N)%nat then
      batch <~ de_sitter_batch (S fuel') N D KT2 fix_ends ;;
      de_sitter_fill fuel' N D KT2 fix_ends (Z ++ batch)
    else st_ret Z
  end.

Definition de_sitter_interval_scatter (fuel : nat) (N D : nat) (KT2 : R) (fix_ends : bool)
  : stm rng (list (list R)) :=
  if Rlt_dec 0 KT2 then
    if Rlt_dec KT2 4 then
      Z <~ de_sitter_fill fuel N D KT2 fix_ends [] ;;
      Z' <~ (if fix_ends then
               z0 <~ lift (getitem Z 0) ;;
               Z0 <~ lift (setitem Z 0 (replicate (length z0) 0)) ;;
               z1 <~ lift (getitem Z0 1) ;;
               Z1 <~ lift (setitem Z0 1 (replicate (length z1) 0)) ;;
               z1' <~ lift (setitem (replicate (length z1) 0) 0 1) ;;
               lift (setitem Z1 1 z1')
             else st_ret Z) ;;
      st_ret (take N Z')
    else lift (Raise (AssertionError msg_KT2))
  else lift (Raise (AssertionError msg_KT2)).

Definition msg_de_sitter_interval_map : string := "Not implemented yet".

Definition de_sitter_interval_map (N D : nat) (KT2 : R) (fix_ends : bool)
  : stm rng (list (list R)) :=
  lift (Raise (AssertionError msg_de_sitter_interval_map)).

Definition de_sitter_interval (fuel : nat) (N D : nat) (KT2 : R) (fix_ends : bool)
    (method : string) : stm rng (list (list R)) :=
  if String.eqb method "scatter" then de_sitter_interval_scatter fuel N D KT2 fix_ends
  else if String.eqb method "map" then de_sitter_interval_map N D KT2 fix_ends
  else lift (Raise (AssertionError
         ("Invalid method " +:+ method +:+ " given to de_sitter_interval"))).

End CausalSet.

(** ** Notions used to state the properties *)

(** The squared differences of two vectors, coordinate by coordinate. *)
Definition sq_diffs (x y : list R) : list R :=
  zip_with (fun u v => (u - v) * (u - v)) x y.

(** The time coordinate of point [i] of a coordinate matrix. *)
Definition time_of (Rm : list (list R)) (i : nat) : option R :=
  Rm !! i ≫= fun row => row !! 0%nat.

(** Every row of [Rm] has [D] coordinates: [Rm] has shape [(length Rm, D)]. *)
Definition has_columns (D : nat) (Rm : list (list R)) : Prop :=
  Forall (fun row => length row = D) Rm.

(** [i] causally precedes [j]: earlier in time and timelike separated for the
    plain Minkowski metric. *)
Definition precedes (Rm : list (list R)) (i j : nat) : Prop :=
  exists Ri Rj ti tj s,
    Rm !! i = Some Ri /\ Rm !! j = Some Rj /\
    Ri !! 0%nat = Some ti /\ Rj !! 0%nat = Some tj /\ ti < tj /\
    Metrics.minkowski Ri Rj = Return s /\ s < 0.

(** The test that [causal_set_graph] makes on the pair [(i, j)] when [p = 1]
    and no periodic spec is given, on rows that have a time coordinate. *)
Definition causal_pair (Rm : list (list R)) (i j : nat) : bool :=
  match Rm !! i, Rm !! j with
  | Some (ti :: ri), Some (tj :: rj) =>
    if Rlt_dec ti tj then
      if Rlt_dec (np_sum (sq_diffs ri rj) - (ti - tj) * (ti - tj)) 0 then true else false
    else false
  | _, _ => false
  end.

(** The pairs [(i, j)], [j] in [js], that pass the test, in the order of [js]. *)
Fixpoint causal_pairs_from (Rm : list (list R)) (i : nat) (js : list nat)
  : list (nat * nat) :=
  match js with
  | [] => []
  | j :: js' =>
    if causal_pair Rm i j then (i, j) :: causal_pairs_from Rm i js'
    else causal_pairs_from Rm i js'
  end.

(** All the pairs that pass the test, with [i] in [is_] and [j] in [js]. *)
Definition causal_pairs (Rm : list (list R)) (is_ js : list nat) : list (nat * nat) :=
  flat_map (fun i => causal_pairs_from Rm i js) is_.

(** A graph is acyclic when no non-empty walk along its edges comes back to
    its starting node. *)
Definition acyclic (G : DiGraph) : Prop :=
  forall i, ~ tc (fun u v => (u, v) ∈ edges G) i i.

(** The squared Euclidean norm of a vector. *)
Definition sq_norm (x : list R) : R := np_sum (map (fun v => v * v) x).

(** The hyperspherical parametrisation, by recursion on the angles. *)
Fixpoint sphere_point (a : list R) : list R :=
  match a with
  | [] => [1]
  | t :: a' => cos t :: map (Rmult (sin t)) (sphere_point a')
  end.

(** The angles of a vector, by recursion on its coordinates: the last angle
    is reflected when the last coordinate is negative. *)
Fixpoint sphere_angles (x : list R) : list R :=
  match x with
  | [] => []
  | x0 :: xs =>
    match xs with
    | [] => []
    | [x1] =>
      let psi := acos (x0 / sqrt (sq_norm x)) in
      [if Rlt_dec x1 0 then 2 * PI - psi else psi]
    | _ :: _ :: _ => acos (x0 / sqrt (sq_norm x)) :: sphere_angles xs
    end
  end.

(** The angles accepted by the spherical metric: all in [(0, pi)] but the
    last, which is in [(0, 2 pi)]. *)
Fixpoint angles_in_range (a : list R) : Prop :=
  match a with
  | [] => True
  | [t] => 0 < t < 2 * PI
  | t :: a' => 0 < t < PI /\ angles_in_range a'
  end.

(** The nodes after the outer loop went through the indices [is_]. *)
Definition nodes_added (Rm : list (list R)) (is_ : list nat) (G : DiGraph) : DiGraph :=
  fold_left (fun G i => match Rm !! i with Some Ri => add_node i Ri G | None => G end)
            is_ G.

(** The acceptance test of the scatter method: not spacelike from either end
    of the interval. *)
Definition inside_interval (a b row : list R) : Prop :=
  exists s1 s2,
    Metrics.minkowski a row = Return s1 /\ s1 <= 0 /\
    Metrics.minkowski row b = Return s2 /\ s2 <= 0.

(** Starting from [row], the rejection loop meets a point inside the interval
    after at most [k] draws of [D] values from the generator [g]. *)
Fixpoint accepted_within (k D : nat) (a b row : list R) (g : rng) : Prop :=
  inside_interval a b row \/
  match k with
  | O => False
  | S k' => accepted_within k' D a b (map g (seq 0 D)) (fun n => g (D + n)%nat)
  end.

(** A generator that first yields six zeros and then [0.5] for ever: with it
    row 2 of a 3 x 2 matrix starts as [(0, 0)], outside the interval, and the
    second try [(0.5, 0.5)] is inside. *)
Definition zeros_then_halves : rng := fun n => if (n <? 6)%nat then 0 else 0.5.

(** The angle that [cartesian_to_angular] stores at index [i]. *)
Definition raw_angle (x : list R) (i : nat) : npfloat :=
  np_arccos (np_divide (nth i x 0) (Metrics.norm_from x i)).

(** The angles before the reflection of the last one. *)
Fixpoint unreflected (x : list R) : list R :=
  match x with
  | [] => []
  | x0 :: xs =>
    match xs with
    | [] => []
    | _ :: _ => acos (x0 / sqrt (sq_norm x)) :: unreflected xs
    end
  end.

(** [l[-1] = 2 pi - l[-1]] *)
Fixpoint reflect_last (l : list R) : list R :=
  match l with
  | [] => []
  | t :: l' =>
    match l' with
    | [] => [2 * PI - t]
    | _ :: _ => t :: reflect_last l'
    end
  end.

(** The last two coordinates are not both zero. *)
Fixpoint tail_nonzero (x : list R) : Prop :=
  match x with
  | [] => False
  | x0 :: xs =>
    match xs with
    | [] => False
    | [x1] => x0 <> 0 \/ x1 <> 0
    | _ :: _ :: _ => tail_nonzero xs
    end
  end.

(** Settles the comparisons of concrete reals that a goal branches on. *)
Ltac decide_reals :=
  repeat match goal with
  | |- context [Rlt_dec ?a ?b] => destruct (Rlt_dec a b); try lra
  | |- context [Rgt_dec ?a ?b] => destruct (Rgt_dec a b); try lra
  | |- context [Rle_dec ?a ?b] => destruct (Rle_dec a b); try lra
  | |- context [Req_dec_T ?a ?b] => destruct (Req_dec_T a b); try lra
  end.

(** * Properties *)

(** ** Sums, indexing and loops *)

Lemma fold_left_Rplus_acc (l : list R) (acc : R) :
  fold_left Rplus l acc = acc + np_sum l.
Proof.
  revert acc. induction l as [|v l IH]; intros acc; simpl.
  - lra.
  - rewrite IH. lra.
Qed.

Lemma py_sum_np_sum (l : list R) : py_sum l = np_sum l.
Proof. unfold py_sum. rewrite fold_left_Rplus_acc. lra. Qed.

Lemma getitem_Some {A} (l : list A) (i : nat) (a : A) :
  l !! i = Some a -> getitem l i = Return a.
Proof. intros H. unfold getitem. now rewrite H. Qed.

Lemma getitem_None {A} (l : list A) (i : nat) :
  l !! i = None -> getitem l i = Raise IndexError.
Proof. intros H. unfold getitem. now rewrite H. Qed.

Lemma setitem_lt {A} (l : list A) (i : nat) (v : A) :
  (i < length l)%nat -> setitem l i v = Return (<[i := v]> l).
Proof. intros H. unfold setitem. now rewrite decide_True. Qed.

(** The list comprehension of [minkowski] reads the two vectors in step. *)
Lemma comprehension_differences (x y : list R) (k : nat) :
  length x = length y ->
  comprehension
    (fun i => xi <- getitem x i ;; yi <- getitem y i ;; Return (xi - yi))
    (seq k (length x - k))
  = Return (zip_with Rminus (drop k x) (drop k y)).
Proof.
  intros Hlen.
  remember (length x - k)%nat as n eqn:Hn.
  revert k Hn. induction n as [|n IH]; intros k Hn; simpl.
  - rewrite (drop_ge x), (drop_ge y) by lia. reflexivity.
  - destruct (lookup_lt_is_Some_2 x k) as [xk Hxk]; [lia|].
    destruct (lookup_lt_is_Some_2 y k) as [yk Hyk]; [lia|].
    rewrite (getitem_Some _ _ _ Hxk), (getitem_Some _ _ _ Hyk). simpl.
    rewrite IH by lia. simpl.
    rewrite (drop_S _ _ _ Hxk), (drop_S _ _ _ Hyk). reflexivity.
Qed.

Lemma zip_with_square (x y : list R) :
  (let d := zip_with Rminus x y in zip_with Rmult d d) = sq_diffs x y.
Proof.
  revert y. induction x as [|u x IH]; intros [|v y]; simpl; try reflexivity.
  simpl in IH. now rewrite IH.
Qed.

(** [minkowski] on two vectors of the same positive length. *)
Lemma minkowski_cons (x0 y0 : R) (xs ys : list R) :
  length xs = length ys ->
  Metrics.minkowski (x0 :: xs) (y0 :: ys)
  = Return (np_sum (sq_diffs xs ys) - (x0 - y0) * (x0 - y0)).
Proof.
  intros Hlen. unfold Metrics.minkowski.
  rewrite decide_True by (simpl; lia).
  cbn [getitem lookup list_lookup bind]. unfold range.
  rewrite (comprehension_differences (x0 :: xs) (y0 :: ys) 1) by (simpl; lia).
  cbn [bind drop]. rewrite !drop_0, py_sum_np_sum.
  pose proof (zip_with_square xs ys) as Hsq. cbv zeta in Hsq.
  now rewrite Hsq.
Qed.

Lemma minkowski_nil : Metrics.minkowski [] [] = Raise IndexError.
Proof. reflexivity. Qed.

Lemma minkowski_mismatch (x y : list R) :
  length x <> length y ->
  Metrics.minkowski x y = Raise (AssertionError Metrics.msg_minkowski).
Proof. intros H. unfold Metrics.minkowski. now rewrite decide_False. Qed.

Lemma euclidean_mismatch (x y : list R) :
  length x <> length y ->
  Metrics.euclidean x y = Raise (AssertionError Metrics.msg_euclidean).
Proof. intros H. unfold Metrics.euclidean. now rewrite decide_False. Qed.

Lemma spherical_mismatch (x y : list R) :
  length x <> length y ->
  Metrics.spherical x y = Raise (AssertionError Metrics.msg_spherical).
Proof. intros H. unfold Metrics.spherical. now rewrite decide_False. Qed.

Lemma minkowski_periodic_mismatch (x y : list R) (L : list (option R)) :
  length x <> length y ->
  Metrics.minkowski_periodic x y L = (Raise (AssertionError Metrics.msg_minkowski), L).
Proof.
  intros H. unfold Metrics.minkowski_periodic. rewrite decide_False; [reflexivity|].
  congruence.
Qed.

(** [de_sitter] has no length test of its own: it reads the two time
    coordinates, and the test of [spherical] on the spatial parts raises. *)
Lemma de_sitter_mismatch (x y : list R) :
  x <> [] -> y <> [] -> length x <> length y ->
  Metrics.de_sitter x y = Raise (AssertionError Metrics.msg_spherical).
Proof.
  intros Hx Hy Hlen. destruct x as [|x0 xs]; [done|]. destruct y as [|y0 ys]; [done|].
  unfold Metrics.de_sitter. simpl bind. simpl drop.
  rewrite spherical_mismatch; [reflexivity|].
  simpl in Hlen. rewrite !drop_0. congruence.
Qed.

Lemma pad_with_None_eq (n : nat) (L : list (option R)) :
  Metrics.pad_with_None n L = L ++ replicate (n - length L) None.
Proof.
  unfold Metrics.pad_with_None.
  induction (n - length L)%nat as [|k IH]; simpl.
  - now rewrite app_nil_r.
  - rewrite IH, <- app_assoc. f_equal.
    change [@None R] with (replicate 1 (@None R)).
    rewrite <- replicate_add. now replace (k + 1)%nat with (S k) by lia.
Qed.

Lemma pad_with_None_length (n : nat) (L : list (option R)) :
  length (Metrics.pad_with_None n L) = Nat.max n (length L).
Proof. rewrite pad_with_None_eq, length_app, length_replicate. lia. Qed.

(** The first turn of the loop of [minkowski_periodic] reaches [dz2 += dx2]
    with [dz2] unbound. *)
Lemma minkowski_periodic_unbound (x y : list R) (L : list (option R)) :
  length x = length y -> (2 <= length x)%nat ->
  (Metrics.minkowski_periodic x y L).1 = Raise (UnboundLocalError "dz2").
Proof.
  intros Hlen Hx. unfold Metrics.minkowski_periodic.
  rewrite decide_True by congruence. cbn [fst].
  destruct x as [|x0 [|x1 xs]]; simpl in Hx; try lia.
  destruct y as [|y0 [|y1 ys]]; simpl in Hlen; try lia.
  simpl bind. unfold range. simpl seq. cbn [for_loop].
  unfold Metrics.minkowski_periodic_body at 1.
  set (L' := Metrics.pad_with_None _ L).
  assert (HL : (0 < length L')%nat).
  { unfold L'. rewrite pad_with_None_length. simpl. lia. }
  destruct (lookup_lt_is_Some_2 L' 0 HL) as [l0 Hl0].
  simpl Nat.sub. rewrite (getitem_Some _ _ _ Hl0). reflexivity.
Qed.

(** With a single coordinate the loop does not run and both functions agree. *)
Lemma minkowski_periodic_time_only (t s : R) (L : list (option R)) :
  exists v, (Metrics.minkowski_periodic [t] [s] L).1 = Return v /\
            Metrics.minkowski [t] [s] = Return v.
Proof.
  exists (-1 * ((t - s) * (t - s))). split; [reflexivity|].
  rewrite minkowski_cons by reflexivity. f_equal. simpl. lra.
Qed.

(** ** The periodic Minkowski separation *)

(** C1: [minkowski_periodic] with an all-[None] (here empty) periodic spec is
    meant to return what [minkowski] returns.  On the points [[0, 0]] and
    [[1, 0]], [minkowski] returns [-1] while [minkowski_periodic] raises
    [UnboundLocalError]: its loop adds to [dz2], a name that is never bound
    (the accumulator is called [ds2]). *)
Theorem C1_minkowski_periodic_unbound_dz2 :
  Metrics.minkowski [0; 0] [1; 0] = Return (-1) /\
  Metrics.minkowski_periodic [0; 0] [1; 0] []
  = (Raise (UnboundLocalError "dz2"), [None]).
Proof.
  split.
  - rewrite minkowski_cons by reflexivity. f_equal. simpl. lra.
  - reflexivity.
Qed.

(** The list that a call of [minkowski_periodic] leaves behind, when the two
    points have the same length. *)
Lemma minkowski_periodic_final_L (x y : list R) (L : list (option R)) :
  length y = length x ->
  (Metrics.minkowski_periodic x y L).2
  = L ++ replicate (length x - 1 - length L) None.
Proof.
  intros Hlen. unfold Metrics.minkowski_periodic.
  rewrite decide_True by done. cbn [snd]. apply pad_with_None_eq.
Qed.

(** C10 as stated fails when the points differ in length: the assertion comes
    before the padding loop, and the list is left as it was. *)
Lemma C10_length_test_precedes_padding :
  (length (@nil (option R)) < length [0; 0; 0] - 1)%nat /\
  Metrics.minkowski_periodic [0; 0; 0] [0] []
  = (Raise (AssertionError Metrics.msg_minkowski), []).
Proof. split; [simpl; lia | reflexivity]. Qed.

(** C10 (amended): when [len(y) == len(x) == D] and the list that the call
    works on is shorter than [D-1], the call leaves that list padded with
    [None] up to length [D-1], hence longer than before; the list is the
    caller's when one is passed, the function's default list otherwise, and
    the other of the two is untouched. *)
Theorem C10_minkowski_periodic_pads_L (x y : list R) (L default_L : list (option R)) :
  length y = length x ->
  ((length L < length x - 1)%nat ->
   exists L',
     (Metrics.minkowski_periodic_call x y (Some L) default_L).2 = (Some L', default_L) /\
     L' = L ++ replicate (length x - 1 - length L) None /\
     length L' = (length x - 1)%nat /\ (length L < length L')%nat) /\
  ((length default_L < length x - 1)%nat ->
   exists d',
     (Metrics.minkowski_periodic_call x y None default_L).2 = (None, d') /\
     d' = default_L ++ replicate (length x - 1 - length default_L) None /\
     length d' = (length x - 1)%nat /\ (length default_L < length d')%nat).
Proof.
  intros Hlen. split; intros Hshort.
  - exists (L ++ replicate (length x - 1 - length L) None).
    unfold Metrics.minkowski_periodic_call.
    pose proof (minkowski_periodic_final_L x y L Hlen) as HL.
    destruct (Metrics.minkowski_periodic x y L) as [o l']. simpl in HL. subst l'.
    repeat split; rewrite ?length_app, ?length_replicate; lia.
  - exists (default_L ++ replicate (length x - 1 - length default_L) None).
    unfold Metrics.minkowski_periodic_call.
    pose proof (minkowski_periodic_final_L x y default_L Hlen) as HL.
    destruct (Metrics.minkowski_periodic x y default_L) as [o l']. simpl in HL. subst l'.
    repeat split; rewrite ?length_app, ?length_replicate; lia.
Qed.

Lemma C10_minkowski_periodic_pads_L_witness :
  (exists L',
     (Metrics.minkowski_periodic_call [0; 0; 0] [1; 0; 0] (Some [Some 2]) []).2
     = (Some L', []) /\
     L' = [Some 2] ++ replicate (length [0; 0; 0] - 1 - length [Some 2]) None /\
     length L' = (length [0; 0; 0] - 1)%nat /\ (length [Some 2] < length L')%nat) /\
  (exists d',
     (Metrics.minkowski_periodic_call [0; 0; 0] [1; 0; 0] None []).2 = (None, d') /\
     d' = [] ++ replicate (length [0; 0; 0] - 1 - length (@nil (option R))) None /\
     length d' = (length [0; 0; 0] - 1)%nat /\
     (length (@nil (option R)) < length d')%nat).
Proof.
  destruct (C10_minkowski_periodic_pads_L [0; 0; 0] [1; 0; 0] [Some 2] [] eq_refl)
    as [Hpassed Hdefault].
  split; [apply Hpassed | apply Hdefault]; simpl; lia.
Defined.

(** The default list is shared by the calls that use it: what one call
    appended is there for the next. *)
Lemma minkowski_periodic_default_shared (x y x' y' : list R) (default_L : list (option R)) :
  length y = length x ->
  let after := (Metrics.minkowski_periodic_call x y None default_L).2.2 in
  (Metrics.minkowski_periodic_call x' y' None after).1
  = (Metrics.minkowski_periodic x' y'
       (default_L ++ replicate (length x - 1 - length default_L) None)).1.
Proof.
  intros Hlen after. subst after. unfold Metrics.minkowski_periodic_call.
  pose proof (minkowski_periodic_final_L x y default_L Hlen) as HL.
  destruct (Metrics.minkowski_periodic x y default_L) as [o l']. simpl in HL. subst l'.
  cbn [snd]. now destruct (Metrics.minkowski_periodic x' y' _).
Qed.

(** ** Points of different lengths *)

(** C3: every metric is meant to fail its length assertion on points of
    different lengths.  [de_sitter] has no assertion of its own and reads
    [x[0]] first: on an empty point against a non-empty one it raises
    [IndexError], where its sibling [minkowski] fails the assertion. *)
Theorem C3_de_sitter_empty_point_IndexError :
  length (@nil R) <> length [1] /\
  Metrics.de_sitter [] [1] = Raise IndexError /\
  Metrics.de_sitter [1] [] = Raise IndexError /\
  Metrics.minkowski [] [1] = Raise (AssertionError Metrics.msg_minkowski).
Proof. repeat split; try reflexivity. simpl. lia. Qed.

(** ** The sampling methods *)

(** C7: with [method='map'], [minkowski_interval] and [de_sitter_interval]
    fail the [assert False] of their stubs, for every [N], [D], [KT2] and
    [fix_ends]; no matrix is returned and no random number is drawn. *)
Theorem C7_map_method_not_implemented
    (fuel N D : nat) (KT2 : R) (fix_ends : bool) (g : rng) :
  CausalSet.minkowski_interval fuel N D fix_ends "map" g
  = (Raise (AssertionError "ERROR - minkowski_interval_map not implemented yet"), g) /\
  CausalSet.de_sitter_interval fuel N D KT2 fix_ends "map" g
  = (Raise (AssertionError "Not implemented yet"), g).
Proof. split; reflexivity. Qed.

(** C8: with the default method ([scatter]), [de_sitter_interval] fails the
    assertion [0 < KT2 < 4] whenever [KT2 <= 0] or [KT2 >= 4], for every [N],
    [D] and [fix_ends]; no matrix is returned and no random number is
    drawn. *)
Theorem C8_de_sitter_interval_KT2_range
    (fuel N D : nat) (KT2 : R) (fix_ends : bool) (g : rng) :
  KT2 <= 0 \/ KT2 >= 4 ->
  CausalSet.de_sitter_interval fuel N D KT2 fix_ends "scatter" g
  = (Raise (AssertionError "KT^2 must be between 0 and 4 for this method"), g).
Proof.
  intros HKT2. unfold CausalSet.de_sitter_interval. cbn [String.eqb Ascii.eqb Bool.eqb].
  unfold CausalSet.de_sitter_interval_scatter.
  destruct (Rlt_dec 0 KT2) as [Hpos|Hneg]; [|reflexivity].
  destruct (Rlt_dec KT2 4) as [Hlt|Hge]; [lra|reflexivity].
Qed.

Lemma C8_de_sitter_interval_KT2_range_witness :
  CausalSet.de_sitter_interval 5 10 3 4 false "scatter" (fun _ => 0)
  = (Raise (AssertionError "KT^2 must be between 0 and 4 for this method"), fun _ => 0).
Proof.
  apply (C8_de_sitter_interval_KT2_range 5 10 3 4 false (fun _ => 0)).
  right. lra.
Defined.

(** ** The causal graph *)

Lemma has_columns_lookup (D : nat) (Rm : list (list R)) (i : nat) (row : list R) :
  has_columns D Rm -> Rm !! i = Some row -> length row = D.
Proof.
  unfold has_columns. rewrite Forall_lookup. intros H Hi. exact (H i row Hi).
Qed.

Lemma row_with_time (D : nat) (Rm : list (list R)) (i : nat) :
  has_columns D Rm -> (1 <= D)%nat -> (i < length Rm)%nat ->
  exists t r, Rm !! i = Some (t :: r) /\ length r = (D - 1)%nat.
Proof.
  intros Hcols HD Hi.
  destruct (lookup_lt_is_Some_2 Rm i Hi) as [[|t r] Hrow].
  - apply (has_columns_lookup D) in Hrow; [simpl in Hrow; lia | done].
  - exists t, r. split; [done|].
    apply (has_columns_lookup D) in Hrow; [simpl in Hrow; lia | done].
Qed.

(** With [p = 1] and no periodic spec, the tests on a pair draw no random
    number and leave the state as it is. *)
Lemma causal_set_graph_pair_plain (D : nat) (Rm : list (list R)) (i j : nat)
    (edgelist : list (nat * nat)) (g : rng) :
  has_columns D Rm -> (1 <= D)%nat -> (i < length Rm)%nat -> (j < length Rm)%nat ->
  CausalSet.causal_set_graph_pair Rm 1 i j edgelist (g, None)
  = (Return (if causal_pair Rm i j then edgelist ++ [(i, j)] else edgelist), (g, None)).
Proof.
  intros Hcols HD Hi Hj.
  destruct (row_with_time D Rm i Hcols HD Hi) as (ti & ri & Hri & Hleni).
  destruct (row_with_time D Rm j Hcols HD Hj) as (tj & rj & Hrj & Hlenj).
  unfold CausalSet.causal_set_graph_pair, causal_pair.
  rewrite Hri, Hrj, (getitem_Some _ _ _ Hri), (getitem_Some _ _ _ Hrj).
  unfold st_bind, lift, st_ret. cbn [getitem lookup list_lookup].
  destruct (Rlt_dec ti tj) as [Hlt|Hge]; [|reflexivity].
  destruct (Req_dec_T 1 1) as [_|Hne]; [|lra].
  cbn [CausalSet.periodic_given snd].
  rewrite minkowski_cons by congruence.
  destruct (Rlt_dec _ 0); reflexivity.
Qed.

Lemma causal_set_graph_inner_plain (D : nat) (Rm : list (list R)) (i : nat)
    (js : list nat) (edgelist : list (nat * nat)) (g : rng) :
  has_columns D Rm -> (1 <= D)%nat -> (i < length Rm)%nat ->
  Forall (fun j => (j < length Rm)%nat) js ->
  st_for (CausalSet.causal_set_graph_pair Rm 1 i) js edgelist (g, None)
  = (Return (edgelist ++ causal_pairs_from Rm i js), (g, None)).
Proof.
  intros Hcols HD Hi Hjs. revert edgelist.
  induction Hjs as [|j js Hj Hjs IH]; intros edgelist; cbn [st_for causal_pairs_from].
  - unfold st_ret. now rewrite app_nil_r.
  - unfold st_bind.
    rewrite (causal_set_graph_pair_plain D) by done.
    rewrite IH. destruct (causal_pair Rm i j); [|reflexivity].
    now rewrite <- app_assoc.
Qed.

Lemma causal_set_graph_outer_plain (D : nat) (Rm : list (list R)) (is_ : list nat)
    (G : DiGraph) (edgelist : list (nat * nat)) (g : rng) :
  has_columns D Rm -> (1 <= D)%nat ->
  Forall (fun i => (i < length Rm)%nat) is_ ->
  st_for (CausalSet.causal_set_graph_row Rm 1 (length Rm)) is_ (G, edgelist) (g, None)
  = (Return (nodes_added Rm is_ G,
             edgelist ++ causal_pairs Rm is_ (range 0 (length Rm))), (g, None)).
Proof.
  intros Hcols HD His. revert G edgelist.
  induction His as [|i is_ Hi His IH]; intros G edgelist;
    cbn [st_for causal_pairs flat_map nodes_added fold_left].
  - unfold st_ret. now rewrite app_nil_r.
  - unfold st_bind at 1. unfold CausalSet.causal_set_graph_row at 1.
    destruct (lookup_lt_is_Some_2 Rm i Hi) as [Ri HRi].
    rewrite (getitem_Some _ _ _ HRi), HRi.
    unfold st_bind at 1. unfold lift at 1.
    unfold st_bind at 1.
    rewrite (causal_set_graph_inner_plain D) by
      (try done; unfold range; apply Forall_forall; intros j Hj;
       apply elem_of_seq in Hj; lia).
    unfold st_ret at 1. cbn [fst snd].
    rewrite IH. unfold causal_pairs. now rewrite <- app_assoc.
Qed.

Lemma add_edges_from_edges (el : list (nat * nat)) (G : DiGraph) :
  edges (add_edges_from el G) = list_to_set el ∪ edges G.
Proof.
  unfold add_edges_from. revert G.
  induction el as [|e el IH]; intros G; simpl.
  - now rewrite (left_id_L ∅ (∪)).
  - rewrite IH. simpl.
    now rewrite (comm_L (∪) {[e]} (list_to_set el)), <- (assoc_L (∪)).
Qed.

Lemma add_edge_nodes_present (e : nat * nat) (G : DiGraph) :
  is_Some (nodes G !! e.1) -> is_Some (nodes G !! e.2) ->
  nodes (add_edge e G) = nodes G.
Proof.
  intros [v1 H1] [v2 H2]. unfold add_edge. simpl. now rewrite H1, H2.
Qed.

Lemma add_edges_from_nodes (el : list (nat * nat)) (G : DiGraph) :
  Forall (fun e => is_Some (nodes G !! e.1) /\ is_Some (nodes G !! e.2)) el ->
  nodes (add_edges_from el G) = nodes G.
Proof.
  unfold add_edges_from. revert G.
  induction el as [|e el IH]; intros G Hel; simpl; [done|].
  inversion Hel as [|? ? [H1 H2] Hrest]; subst.
  assert (Hn : nodes (add_edge e G) = nodes G) by now apply add_edge_nodes_present.
  rewrite IH; [done|]. rewrite Hn. done.
Qed.

Lemma nodes_added_edges (Rm : list (list R)) (is_ : list nat) (G : DiGraph) :
  edges (nodes_added Rm is_ G) = edges G.
Proof.
  unfold nodes_added. revert G. induction is_ as [|i is_ IH]; intros G; simpl; [done|].
  rewrite IH. now destruct (Rm !! i).
Qed.

Lemma nodes_added_snoc (Rm : list (list R)) (is_ : list nat) (i : nat) (Ri : list R)
    (G : DiGraph) :
  Rm !! i = Some Ri ->
  nodes_added Rm (is_ ++ [i]) G = add_node i Ri (nodes_added Rm is_ G).
Proof.
  intros HRi. unfold nodes_added. rewrite fold_left_app. cbn [fold_left].
  now rewrite HRi.
Qed.

Lemma nodes_added_seq (Rm : list (list R)) (n : nat) (G : DiGraph) (k : nat) :
  (n <= length Rm)%nat ->
  nodes (nodes_added Rm (seq 0 n) G) !! k
  = if decide (k < n)%nat then Some <$> Rm !! k else nodes G !! k.
Proof.
  intros Hn. induction n as [|n IH].
  - reflexivity.
  - destruct (lookup_lt_is_Some_2 Rm n) as [Rn HRn]; [lia|].
    rewrite seq_S, (nodes_added_snoc _ _ _ Rn) by done.
    cbn [add_node nodes plus].
    destruct (decide (k = n)) as [->|Hne].
    + rewrite lookup_insert_eq, decide_True by lia. now rewrite HRn.
    + rewrite lookup_insert_ne by done. rewrite IH by lia.
      repeat case_decide; try lia; done.
Qed.

Lemma elem_of_causal_pairs_from (Rm : list (list R)) (i : nat) (js : list nat)
    (e : nat * nat) :
  e ∈ causal_pairs_from Rm i js <->
  e.1 = i /\ e.2 ∈ js /\ causal_pair Rm i e.2 = true.
Proof.
  induction js as [|j js IH]; simpl.
  - split; [intros H; inversion H | intros (_ & H & _); inversion H].
  - destruct (causal_pair Rm i j) eqn:Hc.
    + rewrite elem_of_cons, IH, elem_of_cons. split.
      * intros [->|(H1 & H2 & H3)]; simpl; auto.
      * intros (H1 & [H2|H2] & H3).
        -- left. destruct e; simpl in *; congruence.
        -- right. auto.
    + rewrite IH, elem_of_cons. split.
      * intros (H1 & H2 & H3); auto.
      * intros (H1 & [H2|H2] & H3); [congruence | auto].
Qed.

Lemma elem_of_causal_pairs (Rm : list (list R)) (is_ js : list nat) (i j : nat) :
  (i, j) ∈ causal_pairs Rm is_ js <->
  i ∈ is_ /\ j ∈ js /\ causal_pair Rm i j = true.
Proof.
  unfold causal_pairs. rewrite list_elem_of_In, in_flat_map. split.
  - intros (i' & Hi' & Hin). apply list_elem_of_In in Hin, Hi'.
    apply elem_of_causal_pairs_from in Hin as (H1 & H2 & H3). simpl in *. subst i'.
    auto.
  - intros (Hi & Hj & Hc). exists i. split; [now apply list_elem_of_In|].
    apply list_elem_of_In, elem_of_causal_pairs_from. auto.
Qed.

Lemma causal_pair_precedes (D : nat) (Rm : list (list R)) (i j : nat) :
  has_columns D Rm -> causal_pair Rm i j = true <-> precedes Rm i j.
Proof.
  intros Hcols. unfold causal_pair, precedes. split.
  - destruct (Rm !! i) as [[|ti ri]|] eqn:Hi; try discriminate.
    destruct (Rm !! j) as [[|tj rj]|] eqn:Hj; try discriminate.
    destruct (Rlt_dec ti tj) as [Hlt|]; try discriminate.
    destruct (Rlt_dec _ 0) as [Hneg|]; try discriminate. intros _.
    exists (ti :: ri), (tj :: rj), ti, tj. eexists.
    split; [done|]. split; [done|]. split; [done|]. split; [done|].
    split; [done|]. split; [|exact Hneg].
    apply minkowski_cons.
    apply (has_columns_lookup D) in Hi, Hj; try done. simpl in *. lia.
  - intros (Ri & Rj & ti & tj & s & Hi & Hj & Hti & Htj & Hlt & Hm & Hneg).
    rewrite Hi, Hj.
    destruct Ri as [|ti' ri]; [discriminate|]. destruct Rj as [|tj' rj]; [discriminate|].
    simpl in Hti, Htj. injection Hti as ->. injection Htj as ->.
    rewrite minkowski_cons in Hm.
    + injection Hm as <-. destruct (Rlt_dec ti tj); [|lra].
      destruct (Rlt_dec _ 0); [done|lra].
    + apply (has_columns_lookup D) in Hi, Hj; try done. simpl in *. lia.
Qed.

Lemma precedes_time (Rm : list (list R)) (i j : nat) :
  precedes Rm i j ->
  exists ti tj, time_of Rm i = Some ti /\ time_of Rm j = Some tj /\ ti < tj.
Proof.
  intros (Ri & Rj & ti & tj & s & Hi & Hj & Hti & Htj & Hlt & _).
  exists ti, tj. unfold time_of. rewrite Hi, Hj. simpl. auto.
Qed.

(** Along a walk whose edges all go forward in time, time goes forward. *)
Lemma walk_forward_in_time (Rm : list (list R)) (E : nat -> nat -> Prop) :
  (forall u v, E u v ->
     exists tu tv, time_of Rm u = Some tu /\ time_of Rm v = Some tv /\ tu < tv) ->
  forall u v, tc E u v ->
     exists tu tv, time_of Rm u = Some tu /\ time_of Rm v = Some tv /\ tu < tv.
Proof.
  intros HE u v Hwalk. induction Hwalk as [u v Huv | u w v Huw _ IH].
  - now apply HE.
  - destruct (HE u w Huw) as (tu & tw & Hu & Hw & Hlt).
    destruct IH as (tw' & tv & Hw' & Hv & Hlt').
    exists tu, tv. repeat split; try done.
    rewrite Hw in Hw'. injection Hw' as <-. lra.
Qed.

(** The result of [causal_set_graph] with [p = 1] and no periodic spec. *)
Lemma causal_set_graph_plain (D : nat) (Rm : list (list R)) (g : rng) :
  has_columns D Rm -> (1 <= D)%nat ->
  CausalSet.causal_set_graph Rm 1 None g
  = (Return (add_edges_from
               (causal_pairs Rm (range 0 (length Rm)) (range 0 (length Rm)))
               (nodes_added Rm (range 0 (length Rm)) empty_graph)),
     (g, None)).
Proof.
  intros Hcols HD. unfold CausalSet.causal_set_graph, st_bind.
  rewrite (causal_set_graph_outer_plain D); try done.
  unfold range. apply Forall_forall. intros i Hi. apply elem_of_seq in Hi. lia.
Qed.

(** C2: for a coordinate matrix [Rm] of shape [(N, D)] with a time column
    ([D >= 1]), [causal_set_graph(Rm, p=1.0, periodic=None)] returns a graph,
    without drawing a random number, such that: the nodes are [0..N-1], each
    with its point as position; [(i, j)] is an edge exactly when
    [Rm[i,0] < Rm[j,0]] and [minkowski(Rm[i], Rm[j]) < 0]; every edge goes
    from an earlier to a later time coordinate; there is no self-loop; the
    graph is acyclic. *)
Theorem C2_causal_set_graph_is_dag (D : nat) (Rm : list (list R)) (g : rng) :
  has_columns D Rm -> (1 <= D)%nat ->
  exists G,
    CausalSet.causal_set_graph Rm 1 None g = (Return G, (g, None)) /\
    dom (nodes G) = set_seq 0 (length Rm) /\
    (forall i, nodes G !! i = Some <$> Rm !! i) /\
    (forall i j, (i, j) ∈ edges G <-> precedes Rm i j) /\
    (forall i j, (i, j) ∈ edges G ->
       exists ti tj, time_of Rm i = Some ti /\ time_of Rm j = Some tj /\ ti < tj) /\
    (forall i, (i, i) ∉ edges G) /\
    acyclic G.
Proof.
  intros Hcols HD. eexists. split; [now apply (causal_set_graph_plain D)|].
  unfold range. rewrite Nat.sub_0_r.
  set (N := length Rm).
  set (G := add_edges_from _ _).
  assert (Hnodes : forall i, nodes G !! i = Some <$> Rm !! i).
  { intros i. unfold G. rewrite add_edges_from_nodes.
    - rewrite nodes_added_seq by (unfold N; lia).
      case_decide as Hi; [done|].
      rewrite lookup_ge_None_2 by (fold N; lia). done.
    - apply Forall_forall. intros [u v] Huv.
      apply elem_of_causal_pairs in Huv as (Hu & Hv & _).
      apply elem_of_seq in Hu, Hv. cbn [fst snd].
      rewrite !nodes_added_seq by (unfold N; lia).
      rewrite !decide_True by lia.
      destruct (lookup_lt_is_Some_2 Rm u) as [? ->]; [fold N; lia|].
      destruct (lookup_lt_is_Some_2 Rm v) as [? ->]; [fold N; lia|].
      split; eexists; reflexivity. }
  assert (Hedges : forall i j, (i, j) ∈ edges G <-> precedes Rm i j).
  { intros i j. unfold G. rewrite add_edges_from_edges, nodes_added_edges. simpl.
    rewrite elem_of_union, elem_of_list_to_set, elem_of_causal_pairs.
    rewrite <- (causal_pair_precedes D) by done. split.
    - intros [(_ & _ & H)|H]; [done | now apply not_elem_of_empty in H].
    - intros H. left. repeat split; try done.
      + apply elem_of_seq. unfold causal_pair in H.
        destruct (Rm !! i) eqn:Hi; [|discriminate].
        apply lookup_lt_Some in Hi. fold N in Hi. lia.
      + apply elem_of_seq. unfold causal_pair in H.
        destruct (Rm !! i) as [[|? ?]|]; try discriminate.
        destruct (Rm !! j) eqn:Hj; [|discriminate].
        apply lookup_lt_Some in Hj. fold N in Hj. lia. }
  assert (Htime : forall i j, (i, j) ∈ edges G ->
     exists ti tj, time_of Rm i = Some ti /\ time_of Rm j = Some tj /\ ti < tj).
  { intros i j Hij. apply precedes_time. now apply Hedges. }
  repeat split; try done.
  - apply set_eq. intros i. rewrite elem_of_dom, Hnodes, elem_of_set_seq.
    rewrite fmap_is_Some, lookup_lt_is_Some. lia.
  - apply Hedges.
  - apply Hedges.
  - intros i Hii. destruct (Htime i i Hii) as (t & t' & Ht & Ht' & Hlt).
    rewrite Ht in Ht'. injection Ht' as <-. lra.
  - intros i Hwalk.
    destruct (walk_forward_in_time Rm _ Htime i i Hwalk) as (t & t' & Ht & Ht' & Hlt).
    rewrite Ht in Ht'. injection Ht' as <-. lra.
Qed.

Lemma C2_causal_set_graph_is_dag_witness :
  exists G,
    CausalSet.causal_set_graph [[0; 0]; [1; 0]; [2; 0]] 1 None (fun _ => 0.5)
    = (Return G, (fun _ => 0.5, None)) /\
    dom (nodes G) = set_seq 0 (length [[0; 0]; [1; 0]; [2; 0]]) /\
    (forall i, nodes G !! i = Some <$> [[0; 0]; [1; 0]; [2; 0]] !! i) /\
    (forall i j, (i, j) ∈ edges G <-> precedes [[0; 0]; [1; 0]; [2; 0]] i j) /\
    (forall i j, (i, j) ∈ edges G ->
       exists ti tj, time_of [[0; 0]; [1; 0]; [2; 0]] i = Some ti /\
                     time_of [[0; 0]; [1; 0]; [2; 0]] j = Some tj /\ ti < tj) /\
    (forall i, (i, i) ∉ edges G) /\
    acyclic G.
Proof.
  apply (C2_causal_set_graph_is_dag 2 [[0; 0]; [1; 0]; [2; 0]] (fun _ => 0.5)).
  - repeat constructor.
  - lia.
Defined.

Lemma causal_pairs_chain :
  causal_pairs [[0; 0]; [1; 0]; [2; 0]] [0; 1; 2]%nat [0; 1; 2]%nat
  = [(0, 1); (0, 2); (1, 2)]%nat.
Proof.
  unfold causal_pairs, causal_pairs_from, causal_pair, sq_diffs, np_sum. simpl.
  decide_reals. reflexivity.
Qed.

(** C6: on [R = [[0,0],[1,0],[2,0]]] with [p = 1.0], [causal_set_graph]
    returns a graph whose edges are exactly [0 -> 1], [0 -> 2] and [1 -> 2]
    (three edges), the separation of [[0,0]] and [[1,0]] being [-1]. *)
Theorem C6_timelike_chain_edges (g : rng) :
  exists G,
    CausalSet.causal_set_graph [[0; 0]; [1; 0]; [2; 0]] 1 None g = (Return G, (g, None)) /\
    edges G = list_to_set [(0, 1); (0, 2); (1, 2)]%nat /\
    size (edges G) = 3%nat /\
    Metrics.minkowski [0; 0] [1; 0] = Return (-1).
Proof.
  eexists. split.
  - apply (causal_set_graph_plain 2); [repeat constructor | lia].
  - rewrite add_edges_from_edges, nodes_added_edges.
    change (range 0 (length [[0; 0]; [1; 0]; [2; 0]])) with [0; 1; 2]%nat.
    rewrite causal_pairs_chain. cbn [empty_graph edges].
    rewrite (right_id_L ∅ (∪)).
    split; [reflexivity|]. split; [reflexivity|].
    rewrite minkowski_cons by reflexivity. f_equal.
    unfold sq_diffs, np_sum. simpl. lra.
Qed.

(** ** Points on the sphere *)

Lemma zip_with_self (l : list R) : zip_with Rmult l l = map (fun v => v * v) l.
Proof. induction l as [|v l IH]; simpl; [done|]. now rewrite IH. Qed.

Lemma sq_norm_nonneg (l : list R) : 0 <= sq_norm l.
Proof.
  unfold sq_norm. induction l as [|v l IH]; simpl; [lra|]. nra.
Qed.

Lemma sq_norm_cons (v : R) (l : list R) : sq_norm (v :: l) = v * v + sq_norm l.
Proof. reflexivity. Qed.

Lemma sq_norm_pos (l : list R) (v : R) : v ∈ l -> v <> 0 -> 0 < sq_norm l.
Proof.
  intros Hin Hv. induction Hin as [v l | v w l Hin IH]; rewrite sq_norm_cons.
  - pose proof (sq_norm_nonneg l). nra.
  - specialize (IH Hv). nra.
Qed.

Lemma sq_norm_scale (c : R) (l : list R) :
  sq_norm (map (Rmult c) l) = c * c * sq_norm l.
Proof.
  induction l as [|v l IH]; [unfold sq_norm; simpl; lra|].
  cbn [map]. rewrite !sq_norm_cons, IH. lra.
Qed.

Lemma map_np_divide (n : R) (l : list R) :
  n <> 0 -> map (fun v => np_divide v n) l = map Some (map (fun v => v / n) l).
Proof.
  intros Hn. rewrite map_map. apply map_ext. intros v. unfold np_divide.
  destruct (Req_dec_T n 0); [done|reflexivity].
Qed.

Lemma np_random_matrix_lookup (N D : nat) (g : rng) (i : nat) :
  (i < N)%nat ->
  exists Rm g',
    np_random_matrix N D g = (Return Rm, g') /\ length Rm = N /\
    Rm !! i = Some (map (fun j => g (i * D + j)%nat) (seq 0 D)).
Proof.
  intros Hi. eexists _, _. split; [reflexivity|]. split.
  - now rewrite length_map, length_seq.
  - rewrite list_lookup_fmap, lookup_seq_lt by done. reflexivity.
Qed.

(** A row divided by its norm has norm 1, unless the row is zero. *)
Lemma normalised_row (row : list R) :
  0 < sq_norm row ->
  let n := sqrt (np_sum (zip_with Rmult row row)) in
  map (fun v => np_divide v n) row = map Some (map (fun v => v / n) row) /\
  sqrt (sq_norm (map (fun v => v / n) row)) = 1.
Proof.
  intros Hpos n. subst n. rewrite zip_with_self. fold (sq_norm row).
  assert (Hn : 0 < sqrt (sq_norm row)) by now apply sqrt_lt_R0.
  split; [apply map_np_divide; lra|].
  rewrite (map_ext _ (Rmult (/ sqrt (sq_norm row)))) by (intros v; unfold Rdiv; lra).
  rewrite sq_norm_scale.
  replace (_ * _ * _) with 1; [apply sqrt_1|].
  rewrite <- (sqrt_sqrt (sq_norm row)) at 3 by lra. field. lra.
Qed.

(** C9: every row of the matrix that [sphere_surface_cartesian(N, D)] returns
    has [D+1] real coordinates and Euclidean norm 1, provided the [D+1]
    normal draws of that row are not all zero. *)
Theorem C9_sphere_surface_rows_unit_norm (N D : nat) (g : rng) (i : nat) :
  (i < N)%nat ->
  (exists j, (j <= D)%nat /\ g (i * (D + 1) + j)%nat <> 0) ->
  exists M g' r,
    CausalSet.sphere_surface_cartesian N D g = (Return M, g') /\
    length M = N /\
    M !! i = Some (map Some r) /\
    length r = (D + 1)%nat /\
    sqrt (sq_norm r) = 1.
Proof.
  intros Hi (j & Hj & Hgj).
  unfold CausalSet.sphere_surface_cartesian, st_bind, st_ret.
  destruct (np_random_matrix_lookup N (D + 1) g i Hi) as (Rm & g' & HRm & Hlen & Hrow).
  rewrite HRm. set (row := map _ (seq 0 (D + 1))) in Hrow.
  assert (Hpos : 0 < sq_norm row).
  { apply (sq_norm_pos row (g (i * (D + 1) + j)%nat)); [|done].
    unfold row. apply list_elem_of_fmap. exists j. split; [done|].
    apply elem_of_seq. lia. }
  destruct (normalised_row row Hpos) as [Hdiv Hnorm].
  eexists _, g', _. split; [reflexivity|]. split; [|split; [|split]].
  - rewrite length_zip_with, !length_map. lia.
  - rewrite lookup_zip_with, Hrow. cbn [mbind option_bind].
    rewrite !list_lookup_fmap, Hrow. cbn [fmap option_fmap option_map mbind option_bind].
    f_equal. exact Hdiv.
  - unfold row. now rewrite !length_map, length_seq.
  - exact Hnorm.
Qed.

Lemma C9_sphere_surface_rows_unit_norm_witness :
  exists M g' r,
    CausalSet.sphere_surface_cartesian 2 1 (fun n => INR n) = (Return M, g') /\
    length M = 2%nat /\
    M !! 1%nat = Some (map Some r) /\
    length r = (1 + 1)%nat /\
    sqrt (sq_norm r) = 1.
Proof.
  apply (C9_sphere_surface_rows_unit_norm 2 1 (fun n => INR n) 1).
  - lia.
  - exists 0%nat. split; [lia|]. simpl. lra.
Defined.

(** ** Rejection sampling in the Minkowski interval *)

Lemma outside_interval_false (a b row : list R) :
  CausalSet.outside_interval a b row = Return false -> inside_interval a b row.
Proof.
  unfold CausalSet.outside_interval, inside_interval.
  destruct (Metrics.minkowski a row) as [s1| |]; cbn [bind]; try discriminate.
  destruct (Rgt_dec s1 0) as [|H1]; [discriminate|].
  destruct (Metrics.minkowski row b) as [s2| |]; cbn [bind]; try discriminate.
  destruct (Rgt_dec s2 0) as [|H2]; [discriminate|]. intros _.
  exists s1, s2. repeat split; lra.
Qed.

Lemma inside_interval_accepted (a b row : list R) :
  inside_interval a b row -> CausalSet.outside_interval a b row = Return false.
Proof.
  intros (s1 & s2 & H1 & Hs1 & H2 & Hs2). unfold CausalSet.outside_interval.
  rewrite H1. cbn [bind]. destruct (Rgt_dec s1 0); [lra|].
  rewrite H2. cbn [bind]. destruct (Rgt_dec s2 0); [lra|reflexivity].
Qed.

(** When the loop on row [i] ends, that row passes the test and the other
    rows are as they were. *)
Lemma resample_row_returns (fuel D : nat) (a b : list R) (i : nat)
    (Rm Rm' : list (list R)) (g g' : rng) :
  CausalSet.resample_row fuel D a b i Rm g = (Return Rm', g') ->
  length Rm' = length Rm /\
  (forall k, k <> i -> Rm' !! k = Rm !! k) /\
  exists row, Rm' !! i = Some row /\ inside_interval a b row.
Proof.
  revert Rm g. induction fuel as [|fuel IH]; intros Rm g; cbn [CausalSet.resample_row].
  - discriminate.
  - unfold st_bind at 1, lift at 1.
    destruct (getitem Rm i) as [Ri| |] eqn:HRi; try discriminate.
    unfold st_bind at 1, lift at 1.
    destruct (CausalSet.outside_interval a b Ri) as [[|]| |] eqn:Hout; try discriminate.
    + unfold st_bind at 1, np_random_array at 1.
      unfold st_bind at 1, lift at 1.
      destruct (setitem Rm i _) as [Rm1| |] eqn:Hset; try discriminate.
      intros Hrun. apply IH in Hrun as (Hlen & Hother & Hrow).
      unfold setitem in Hset. case_decide as Hi; [|discriminate].
      injection Hset as <-. rewrite length_insert in Hlen.
      split; [done|]. split; [|done].
      intros k Hk. rewrite Hother by done. now rewrite list_lookup_insert_ne.
    + unfold st_ret. intros [= <- <-].
      split; [done|]. split; [done|].
      exists Ri. split; [|now apply outside_interval_false].
      unfold getitem in HRi. destruct (Rm !! i); [congruence|discriminate].
Qed.

(** After the loops on the rows [is_], those rows pass the test and the other
    rows are as they were. *)
Lemma resample_rows_return (fuel D : nat) (a b : list R) (is_ : list nat)
    (Rm Rm' : list (list R)) (g g' : rng) :
  st_for (CausalSet.resample_row fuel D a b) is_ Rm g = (Return Rm', g') ->
  length Rm' = length Rm /\
  (forall k, k ∉ is_ -> Rm' !! k = Rm !! k) /\
  (forall k, k ∈ is_ -> exists row, Rm' !! k = Some row /\ inside_interval a b row).
Proof.
  revert Rm g. induction is_ as [|i is_ IH]; intros Rm g; cbn [st_for].
  - unfold st_ret. intros [= <- <-]. split; [done|]. split; [done|].
    intros k Hk. inversion Hk.
  - unfold st_bind.
    destruct (CausalSet.resample_row fuel D a b i Rm g) as [[Rm1| |] g1] eqn:Hstep;
      try discriminate.
    apply resample_row_returns in Hstep as (Hlen1 & Hother1 & Hrow1).
    intros Hrun. apply IH in Hrun as (Hlen & Hother & Hrows).
    split; [congruence|]. split.
    + intros k Hk. apply not_elem_of_cons in Hk as [Hki Hk].
      rewrite Hother by done. now apply Hother1.
    + intros k Hk. destruct (decide (k ∈ is_)) as [Hin|Hnin]; [now apply Hrows|].
      apply elem_of_cons in Hk as [->|Hk]; [|done].
      rewrite Hother by done. exact Hrow1.
Qed.

(** The loop on a row ends, with fuel to spare, when the generator yields a
    point inside the interval soon enough. *)
Lemma resample_row_ends (k D : nat) (a b : list R) (i : nat)
    (Rm : list (list R)) (row : list R) (g : rng) :
  (1 <= D)%nat -> length a = D -> length b = D ->
  Rm !! i = Some row -> length row = D ->
  accepted_within k D a b row g ->
  exists Rm' g', CausalSet.resample_row (S k) D a b i Rm g = (Return Rm', g').
Proof.
  intros HD Ha Hb. revert Rm row g.
  induction k as [|k IH]; intros Rm row g Hrow Hlen Hacc;
    cbn [CausalSet.resample_row]; unfold st_bind at 1, lift at 1;
    rewrite (getitem_Some _ _ _ Hrow); unfold st_bind at 1, lift at 1.
  - destruct Hacc as [Hin|[]]. rewrite (inside_interval_accepted _ _ _ Hin).
    unfold st_ret. eauto.
  - assert (Hout : exists c, CausalSet.outside_interval a b row = Return c).
    { unfold CausalSet.outside_interval.
      destruct a as [|a0 a']; [simpl in Ha; lia|].
      destruct b as [|b0 b']; [simpl in Hb; lia|].
      destruct row as [|r0 row']; [simpl in Hlen; lia|].
      simpl in Ha, Hb, Hlen.
      rewrite !minkowski_cons by lia. cbn [bind].
      destruct (Rgt_dec _ 0); cbn [bind]; eauto. }
    destruct Hout as [[|] Hout]; rewrite Hout.
    + destruct Hacc as [Hin|Hacc].
      { rewrite (inside_interval_accepted _ _ _ Hin) in Hout. discriminate. }
      unfold st_bind at 1, np_random_array at 1. unfold st_bind at 1, lift at 1.
      rewrite setitem_lt by (now apply lookup_lt_Some in Hrow).
      apply (IH _ (map g (seq 0 D))); [|now rewrite length_map, length_seq|done].
      apply list_lookup_insert_eq. now apply lookup_lt_Some in Hrow.
    + unfold st_ret. eauto.
Qed.

Lemma interval_start_eq (D : nat) :
  (1 <= D)%nat -> CausalSet.interval_start D = 0 :: replicate (D - 1) 0.5.
Proof.
  intros HD. unfold CausalSet.interval_start.
  destruct D as [|D]; [lia|]. reflexivity.
Qed.

Lemma interval_end_eq (D : nat) :
  (1 <= D)%nat -> CausalSet.interval_end D = Return (1 :: replicate (D - 1) 0.5).
Proof.
  intros HD. destruct D as [|D]; [lia|]. reflexivity.
Qed.

Lemma np_sum_sq_diffs_diag (l : list R) : np_sum (sq_diffs l l) = 0.
Proof.
  unfold sq_diffs. induction l as [|v l IH]; simpl; [done|]. rewrite IH. lra.
Qed.

(** The two ends of the interval pass the test. *)
Lemma interval_ends_inside (t : R) (l : list R) :
  0 <= t <= 1 -> inside_interval (0 :: l) (1 :: l) (t :: l).
Proof.
  intros Ht. unfold inside_interval.
  eexists _, _. rewrite !minkowski_cons by done. rewrite !np_sum_sq_diffs_diag.
  split; [reflexivity|]. split; [nra|]. split; [reflexivity|]. nra.
Qed.

(** C4: for [N >= 2] and [D >= 1], whenever
    [minkowski_interval(N, D, fix_ends, method='scatter')] returns a matrix,
    it has [N] rows, every row [r] has [minkowski(a, r) <= 0] and
    [minkowski(r, b) <= 0] for [a = (0, 0.5, ..., 0.5)] and
    [b = (1, 0.5, ..., 0.5)], and with [fix_ends] row 0 is [a] and row 1 is
    [b]. *)
Theorem C4_scatter_rows_inside_interval (fuel N D : nat) (fix_ends : bool)
    (g g' : rng) (Rm : list (list R)) :
  (2 <= N)%nat -> (1 <= D)%nat ->
  CausalSet.minkowski_interval fuel N D fix_ends "scatter" g = (Return Rm, g') ->
  length Rm = N /\
  (forall r, r ∈ Rm ->
     exists s1 s2,
       Metrics.minkowski (0 :: replicate (D - 1) 0.5) r = Return s1 /\ s1 <= 0 /\
       Metrics.minkowski r (1 :: replicate (D - 1) 0.5) = Return s2 /\ s2 <= 0) /\
  (fix_ends = true ->
     Rm !! 0%nat = Some (0 :: replicate (D - 1) 0.5) /\
     Rm !! 1%nat = Some (1 :: replicate (D - 1) 0.5)).
Proof.
  intros HN HD. unfold CausalSet.minkowski_interval.
  cbn [String.eqb Ascii.eqb Bool.eqb]. unfold CausalSet.minkowski_interval_scatter.
  unfold st_bind at 1, np_random_matrix at 1.
  set (Rm0 := map _ (seq 0 N)).
  assert (Hlen0 : length Rm0 = N) by (unfold Rm0; now rewrite length_map, length_seq).
  rewrite interval_start_eq, interval_end_eq by done.
  set (a := 0 :: replicate (D - 1) 0.5). set (b := 1 :: replicate (D - 1) 0.5).
  unfold st_bind at 1, lift at 1.
  fold (inside_interval a b).
  destruct fix_ends.
  - unfold st_bind at 1. unfold st_bind at 1, lift at 1.
    rewrite setitem_lt by lia.
    unfold st_bind at 1, lift at 1.
    rewrite setitem_lt by (rewrite length_insert; lia).
    unfold st_ret at 1. cbn [fst snd].
    intros Hrun. apply resample_rows_return in Hrun as (Hlen & Hother & Hrows).
    rewrite !length_insert in Hlen.
    assert (H0 : Rm !! 0%nat = Some a).
    { rewrite Hother by (unfold range; rewrite elem_of_seq; lia).
      rewrite list_lookup_insert_ne by lia.
      apply list_lookup_insert_eq. lia. }
    assert (H1 : Rm !! 1%nat = Some b).
    { rewrite Hother by (unfold range; rewrite elem_of_seq; lia).
      apply list_lookup_insert_eq. rewrite length_insert. lia. }
    split; [congruence|]. split; [|done].
    intros r Hr. apply list_elem_of_lookup in Hr as [k Hk].
    assert (Hk' : (k < N)%nat) by (apply lookup_lt_Some in Hk; lia).
    destruct (decide (k = 0%nat)) as [->|Hk0].
    { replace r with a by congruence. apply (interval_ends_inside 0); lra. }
    destruct (decide (k = 1%nat)) as [->|Hk1].
    { replace r with b by congruence. apply (interval_ends_inside 1); lra. }
    destruct (Hrows k) as (row & Hrow & Hin).
    { unfold range. apply elem_of_seq. lia. }
    replace r with row by congruence. exact Hin.
  - unfold st_bind at 1, st_ret at 1. cbn [fst snd].
    intros Hrun. apply resample_rows_return in Hrun as (Hlen & Hother & Hrows).
    split; [congruence|]. split; [|discriminate].
    intros r Hr. apply list_elem_of_lookup in Hr as [k Hk].
    assert (Hk' : (k < N)%nat) by (apply lookup_lt_Some in Hk; lia).
    destruct (Hrows k) as (row & Hrow & Hin).
    { unfold range. apply elem_of_seq. lia. }
    replace r with row by congruence. exact Hin.
Qed.

Lemma scatter_run_with_rejection :
  exists g',
    CausalSet.minkowski_interval 2 3 2 true "scatter" zeros_then_halves
    = (Return [[0; 0.5]; [1; 0.5]; [0.5; 0.5]], g').
Proof.
  eexists. unfold CausalSet.minkowski_interval. cbn [String.eqb Ascii.eqb Bool.eqb].
  unfold CausalSet.minkowski_interval_scatter.
  unfold st_bind at 1, np_random_matrix at 1.
  rewrite interval_start_eq, interval_end_eq by lia.
  cbv -[Rgt_dec Rplus Rminus Rmult Ropp Rdiv IZR Rinv].
  decide_reals. reflexivity.
Qed.

Lemma C4_scatter_rows_inside_interval_witness :
  exists g',
    CausalSet.minkowski_interval 2 3 2 true "scatter" zeros_then_halves
    = (Return [[0; 0.5]; [1; 0.5]; [0.5; 0.5]], g') /\
    length [[0; 0.5]; [1; 0.5]; [0.5; 0.5]] = 3%nat /\
    (forall r, r ∈ [[0; 0.5]; [1; 0.5]; [0.5; 0.5]] ->
       exists s1 s2,
         Metrics.minkowski (0 :: replicate (2 - 1) 0.5) r = Return s1 /\ s1 <= 0 /\
         Metrics.minkowski r (1 :: replicate (2 - 1) 0.5) = Return s2 /\ s2 <= 0) /\
    (true = true ->
       [[0; 0.5]; [1; 0.5]; [0.5; 0.5]] !! 0%nat = Some (0 :: replicate (2 - 1) 0.5) /\
       [[0; 0.5]; [1; 0.5]; [0.5; 0.5]] !! 1%nat = Some (1 :: replicate (2 - 1) 0.5)).
Proof.
  destruct scatter_run_with_rejection as [g' Hrun]. exists g'. split; [exact Hrun|].
  apply (C4_scatter_rows_inside_interval 2 3 2 true zeros_then_halves g' _);
    [lia | lia | exact Hrun].
Defined.

(** ** Angular and Cartesian coordinates *)

Lemma lookup_middle_length {A} (pre : list A) (v : A) (rest : list A) (k : nat) :
  k = length pre -> (pre ++ v :: rest) !! k = Some v.
Proof. intros ->. apply list_lookup_middle. reflexivity. Qed.

Lemma insert_middle_length {A} (pre : list A) (v w : A) (rest : list A) (k : nat) :
  k = length pre -> <[k := w]> (pre ++ v :: rest) = pre ++ w :: rest.
Proof.
  intros ->. induction pre as [|p pre IH]; simpl; [done|]. now rewrite IH.
Qed.

Lemma take_middle_length {A} (pre : list A) (v : A) (rest : list A) (k : nat) :
  k = length pre -> take (S k) (pre ++ v :: rest) = pre ++ [v].
Proof.
  intros ->. induction pre as [|p pre IH]; simpl; [now rewrite take_0|].
  simpl in IH. now rewrite IH.
Qed.

Lemma drop_middle_length {A} (pre : list A) (v : A) (rest : list A) (k : nat) :
  k = length pre -> drop (S k) (pre ++ v :: rest) = rest.
Proof.
  intros ->. induction pre as [|p pre IH]; simpl; [now rewrite drop_0|].
  simpl in IH. now rewrite IH.
Qed.

Lemma map_replicate {A B} (f : A -> B) (n : nat) (v : A) :
  map f (replicate n v) = replicate n (f v).
Proof. induction n as [|n IH]; simpl; [done|]. now rewrite IH. Qed.

(** The loop of [angular_to_cartesian], from the turn that handles the angles
    [a] on: the entries not yet handled all hold the product [c] of the sines
    of the angles [pa] handled so far. *)
Lemma angular_to_cartesian_loop (a pa : list R) (pre : list npfloat) (c : R) :
  length pre = length pa ->
  for_loop (Metrics.angular_to_cartesian_step (map Some (pa ++ a)))
           (seq (length pa) (length a))
           (pre ++ replicate (length a + 1) (Some c))
  = Return (pre ++ map Some (map (Rmult c) (sphere_point a))).
Proof.
  revert pa pre c. induction a as [|t a IH]; intros pa pre c Hlen.
  - simpl. now rewrite Rmult_1_r.
  - cbn [length seq for_loop]. unfold Metrics.angular_to_cartesian_step at 1.
    rewrite (getitem_Some _ _ (Some t)).
    2:{ rewrite list_lookup_fmap, (lookup_middle_length pa t a) by done. done. }
    cbn [bind plus replicate].
    rewrite (getitem_Some _ _ (Some c)) by (now apply lookup_middle_length).
    cbn [bind]. rewrite setitem_lt.
    2:{ rewrite length_app. simpl. lia. }
    cbn [bind]. rewrite insert_middle_length by done.
    rewrite take_middle_length, drop_middle_length by done.
    cbn [bind np_cos np_sin option_map fmul].
    rewrite map_replicate. cbn [fmul].
    replace (pa ++ t :: a) with ((pa ++ [t]) ++ a) by now rewrite <- app_assoc.
    replace (S (length pa)) with (length (pa ++ [t])) by (rewrite length_app; simpl; lia).
    rewrite IH by (rewrite !length_app; simpl; lia).
    rewrite <- app_assoc. cbn [app sphere_point map]. do 3 f_equal.
    rewrite !map_map. apply map_ext. intros v. f_equal. lra.
Qed.

(** On real angles [angular_to_cartesian] computes the hyperspherical
    parametrisation. *)
Lemma angular_to_cartesian_real (a : list R) :
  Metrics.angular_to_cartesian (map Some a) = Return (map Some (sphere_point a)).
Proof.
  unfold Metrics.angular_to_cartesian, range.
  rewrite length_map, Nat.sub_0_r.
  pose proof (angular_to_cartesian_loop a [] [] 1 eq_refl) as Hloop.
  cbn [app length] in Hloop. rewrite Hloop. do 2 f_equal.
  rewrite <- (map_id (sphere_point a)) at 2. apply map_ext. intros v. lra.
Qed.

Lemma cartesian_to_angular_loop (x : list R) (n k : nat) (pre : list npfloat) :
  length pre = k -> (k + n <= length x)%nat ->
  for_loop (Metrics.cartesian_to_angular_step x) (seq k n) (pre ++ replicate n (Some 0))
  = Return (pre ++ map (raw_angle x) (seq k n)).
Proof.
  revert k pre. induction n as [|n IH]; intros k pre Hpre Hk.
  - reflexivity.
  - cbn [seq for_loop replicate map]. unfold Metrics.cartesian_to_angular_step at 1.
    destruct (lookup_lt_is_Some_2 x k) as [xk Hxk]; [lia|].
    rewrite (getitem_Some _ _ _ Hxk). cbn [bind].
    rewrite setitem_lt by (rewrite length_app; cbn [length]; lia).
    cbn [bind]. rewrite insert_middle_length by done.
    replace (pre ++ _ :: replicate n (Some 0))
      with ((pre ++ [raw_angle x k]) ++ replicate n (Some 0)).
    + rewrite IH by (rewrite ?length_app; simpl; lia). now rewrite <- app_assoc.
    + rewrite <- app_assoc. cbn [app]. do 2 f_equal.
      unfold raw_angle. do 2 f_equal. now apply nth_lookup_Some with (d := 0).
Qed.

Lemma tail_nonzero_sq_norm (x : list R) : tail_nonzero x -> 0 < sq_norm x.
Proof.
  induction x as [|x0 [|x1 [|x2 xs]] IH]; cbn [tail_nonzero]; try done.
  - intros [H|H]; rewrite !sq_norm_cons; unfold sq_norm; simpl; nra.
  - intros H. specialize (IH H). rewrite sq_norm_cons. nra.
Qed.

Lemma sqrt_sq_norm_sqr (x : list R) :
  sqrt (sq_norm x) * sqrt (sq_norm x) = sq_norm x.
Proof. apply sqrt_sqrt, sq_norm_nonneg. Qed.

Lemma ratio_bounds (a r : R) : 0 < r -> a * a <= r * r -> -1 <= a / r <= 1.
Proof.
  intros Hr Ha. assert (Har : - r <= a <= r) by nra.
  assert (Hinv : 0 < / r) by now apply Rinv_0_lt_compat.
  assert (Hone : r * / r = 1) by (field; lra).
  unfold Rdiv. split; nra.
Qed.

Lemma coordinate_ratio_bounds (x0 : R) (xs : list R) :
  0 < sq_norm (x0 :: xs) ->
  -1 <= x0 / sqrt (sq_norm (x0 :: xs)) <= 1.
Proof.
  intros Hpos. apply ratio_bounds; [now apply sqrt_lt_R0|].
  rewrite sqrt_sq_norm_sqr, sq_norm_cons. pose proof (sq_norm_nonneg xs). lra.
Qed.

Lemma raw_angle_real (p : list R) (x0 : R) (xs : list R) :
  0 < sq_norm (x0 :: xs) ->
  raw_angle (p ++ x0 :: xs) (length p) = Some (acos (x0 / sqrt (sq_norm (x0 :: xs)))).
Proof.
  intros Hpos. unfold raw_angle, Metrics.norm_from.
  rewrite app_nth2, Nat.sub_diag by lia. cbn [nth].
  rewrite drop_app_length. fold (sq_norm (x0 :: xs)).
  unfold np_divide. destruct (Req_dec_T _ 0) as [Hz|_].
  { apply sqrt_lt_R0 in Hpos. lra. }
  cbn [np_arccos]. pose proof (coordinate_ratio_bounds x0 xs Hpos) as [Hlo Hhi].
  destruct (Rle_dec (-1) _); [|lra]. destruct (Rle_dec _ 1); [done|lra].
Qed.

Lemma raw_angles_real (p s : list R) :
  tail_nonzero s ->
  map (raw_angle (p ++ s)) (seq (length p) (length s - 1)) = map Some (unreflected s).
Proof.
  revert p. induction s as [|x0 [|x1 [|x2 xs]] IH]; intros p Hs; try done.
  - cbn [length Nat.sub seq map unreflected].
    rewrite raw_angle_real by now apply tail_nonzero_sq_norm. reflexivity.
  - specialize (IH (p ++ [x0]) Hs). rewrite <- app_assoc in IH. cbn [app] in IH.
    rewrite length_app in IH. cbn [length] in IH.
    replace (length p + 1)%nat with (S (length p)) in IH by lia.
    cbn [length Nat.sub] in *.
    change (seq (length p) (S (S (length xs))))
      with (length p :: seq (S (length p)) (S (length xs))).
    cbn [map]. rewrite IH.
    rewrite raw_angle_real by now apply tail_nonzero_sq_norm. reflexivity.
Qed.

Lemma getlast_last (x0 : R) (xs : list R) :
  getlast (x0 :: xs) = Return (List.last (x0 :: xs) 0).
Proof.
  unfold getlast. cbn [length]. apply getitem_Some.
  revert x0. induction xs as [|x1 xs IH]; intros x0; [done|].
  cbn [length lookup list_lookup]. rewrite IH. reflexivity.
Qed.

Lemma reflect_last_snoc (l : list R) (t : R) :
  reflect_last (l ++ [t]) = l ++ [2 * PI - t].
Proof.
  induction l as [|u l IH]; [done|]. cbn [app reflect_last].
  rewrite IH. destruct l; reflexivity.
Qed.

(** The reflection as [cartesian_to_angular] does it, on real angles. *)
Lemma reflect_last_code (l : list R) :
  l <> [] ->
  (xl <- getlast (map Some l) ;;
   setitem (map Some l) (length (map Some l) - 1) (fsub (Some (2 * PI)) xl))
  = Return (map Some (reflect_last l)).
Proof.
  intros Hl. destruct (exists_last Hl) as (l' & t & ->).
  rewrite reflect_last_snoc, !map_app. cbn [map].
  unfold getlast. rewrite length_app. cbn [length].
  replace (length (map Some l') + 1)%nat with (S (length (map Some l'))) by lia.
  rewrite (getitem_Some _ _ (Some t)) by now apply lookup_middle_length.
  cbn [bind fsub Nat.sub]. rewrite Nat.sub_0_r.
  rewrite setitem_lt by (rewrite length_app; simpl; lia).
  now rewrite insert_middle_length.
Qed.

Lemma sphere_angles_unreflected (x : list R) :
  sphere_angles x
  = if Rlt_dec (List.last x 0) 0 then reflect_last (unreflected x) else unreflected x.
Proof.
  induction x as [|x0 [|x1 [|x2 xs]] IH].
  - cbn [sphere_angles unreflected reflect_last]. now case Rlt_dec.
  - cbn [sphere_angles unreflected reflect_last]. now case Rlt_dec.
  - cbn [sphere_angles unreflected List.last reflect_last]. now case Rlt_dec.
  - change (sphere_angles (x0 :: x1 :: x2 :: xs))
      with (acos (x0 / sqrt (sq_norm (x0 :: x1 :: x2 :: xs)))
            :: sphere_angles (x1 :: x2 :: xs)).
    change (unreflected (x0 :: x1 :: x2 :: xs))
      with (acos (x0 / sqrt (sq_norm (x0 :: x1 :: x2 :: xs)))
            :: unreflected (x1 :: x2 :: xs)).
    change (List.last (x0 :: x1 :: x2 :: xs) 0) with (List.last (x1 :: x2 :: xs) 0).
    rewrite IH. case Rlt_dec; [|done]. intros _.
    cbn [unreflected reflect_last]. reflexivity.
Qed.

Lemma unreflected_nonempty (x0 x1 : R) (xs : list R) : unreflected (x0 :: x1 :: xs) <> [].
Proof. done. Qed.

(** On a vector whose last two coordinates are not both zero,
    [cartesian_to_angular] returns real angles: those of [sphere_angles]. *)
Lemma cartesian_to_angular_real (x : list R) :
  tail_nonzero x ->
  Metrics.cartesian_to_angular x = Return (map Some (sphere_angles x)).
Proof.
  intros Hx. destruct x as [|x0 [|x1 xs]]; try done.
  unfold Metrics.cartesian_to_angular. cbn [length]. unfold range.
  cbn [Nat.sub].
  pose proof (cartesian_to_angular_loop (x0 :: x1 :: xs) (S (length xs)) 0 [] eq_refl)
    as Hloop.
  cbn [app length] in Hloop. rewrite Hloop by lia. cbn [bind].
  pose proof (raw_angles_real [] (x0 :: x1 :: xs) Hx) as Hraw.
  cbn [app length Nat.sub] in Hraw. rewrite Hraw.
  rewrite getlast_last. cbn [bind]. rewrite sphere_angles_unreflected.
  destruct (Rlt_dec _ 0); [|done].
  apply reflect_last_code, unreflected_nonempty.
Qed.

Lemma sphere_angles_cons (x0 : R) (xs : list R) :
  (2 <= length xs)%nat ->
  sphere_angles (x0 :: xs) = acos (x0 / sqrt (sq_norm (x0 :: xs))) :: sphere_angles xs.
Proof. destruct xs as [|y [|z l]]; simpl; intros H; [lia | lia | reflexivity]. Qed.

Lemma tail_nonzero_cons (x0 : R) (xs : list R) :
  (2 <= length xs)%nat -> tail_nonzero (x0 :: xs) <-> tail_nonzero xs.
Proof. destruct xs as [|y [|z l]]; simpl; intros H; [lia | lia | reflexivity]. Qed.

Lemma cos_acos_ratio (a r S : R) :
  0 < r -> r * r = a * a + S -> 0 <= S -> cos (acos (a / r)) = a / r.
Proof. intros Hr Hsq HS. apply cos_acos, ratio_bounds; [done | lra]. Qed.

Lemma sin_acos_ratio (a r S : R) :
  0 < r -> r * r = a * a + S -> 0 <= S -> sin (acos (a / r)) = sqrt S / r.
Proof.
  intros Hr Hsq HS. rewrite sin_acos by (apply ratio_bounds; [done | lra]).
  replace (1 - (a / r)²) with (S / (r * r)).
  - rewrite sqrt_div_alt by nra. now rewrite sqrt_square by lra.
  - unfold Rsqr. replace S with (r * r - a * a) by lra. field. lra.
Qed.

Lemma sqrt_sq_abs (v : R) : sqrt (v * v) = Rabs v.
Proof. apply sqrt_Rsqr_abs. Qed.

(** From the angles of a vector back to the vector, up to its norm. *)
Lemma sphere_point_of_angles (x : list R) :
  tail_nonzero x ->
  sphere_point (sphere_angles x) = map (Rmult (/ sqrt (sq_norm x))) x.
Proof.
  induction x as [|x0 xs IH]; [done|].
  destruct xs as [|x1 [|x2 xs]]; [done| |].
  - (* the last two coordinates *)
    intros Hnz. assert (Hpos : 0 < sq_norm [x0; x1]) by now apply tail_nonzero_sq_norm.
    set (r := sqrt (sq_norm [x0; x1])).
    assert (Hr : 0 < r) by now apply sqrt_lt_R0.
    assert (Hsq : r * r = x0 * x0 + x1 * x1).
    { unfold r. rewrite sqrt_sq_norm_sqr. unfold sq_norm. simpl. lra. }
    assert (Hcos : cos (acos (x0 / r)) = x0 / r).
    { apply (cos_acos_ratio _ _ (x1 * x1)); [done | done | nra]. }
    assert (Hsin : sin (acos (x0 / r)) = Rabs x1 / r).
    { rewrite (sin_acos_ratio _ _ (x1 * x1)); [|done|done|nra]. now rewrite sqrt_sq_abs. }
    cbn [sphere_angles]. fold r. cbn [map].
    destruct (Rlt_dec x1 0) as [Hneg|Hnn]; cbn [sphere_point map].
    + replace (2 * PI - acos (x0 / r)) with (- acos (x0 / r) + 2 * INR 1 * PI)
        by (simpl; lra).
      rewrite cos_period, sin_period, cos_neg, sin_neg, Hcos, Hsin.
      rewrite Rabs_left by done. f_equal; [|f_equal]; field; lra.
    + rewrite Hcos, Hsin. rewrite Rabs_right by lra. f_equal; [|f_equal]; field; lra.
  - (* an earlier coordinate *)
    intros Hnz. apply tail_nonzero_cons in Hnz as Hnz'; [|simpl; lia].
    assert (Hpos : 0 < sq_norm (x0 :: x1 :: x2 :: xs)) by now apply tail_nonzero_sq_norm.
    assert (Hpos' : 0 < sq_norm (x1 :: x2 :: xs)) by now apply tail_nonzero_sq_norm.
    rewrite sphere_angles_cons by (simpl; lia).
    set (r := sqrt (sq_norm (x0 :: x1 :: x2 :: xs))).
    set (r' := sqrt (sq_norm (x1 :: x2 :: xs))) in *.
    assert (Hr : 0 < r) by now apply sqrt_lt_R0.
    assert (Hr' : 0 < r') by now apply sqrt_lt_R0.
    assert (Hsq : r * r = x0 * x0 + sq_norm (x1 :: x2 :: xs)).
    { unfold r. now rewrite sqrt_sq_norm_sqr, sq_norm_cons. }
    cbn [sphere_point]. rewrite (IH Hnz'). fold r'.
    rewrite (cos_acos_ratio _ _ _ Hr Hsq) by lra.
    rewrite (sin_acos_ratio _ _ _ Hr Hsq) by lra. fold r'.
    change (map (Rmult (/ r)) (x0 :: x1 :: x2 :: xs))
      with (/ r * x0 :: map (Rmult (/ r)) (x1 :: x2 :: xs)).
    f_equal; [field; lra|].
    rewrite map_map. apply map_ext. intros v. field. lra.
Qed.

Lemma sphere_point_length (a : list R) : length (sphere_point a) = S (length a).
Proof.
  induction a as [|t a IH]; [done|]. cbn [sphere_point length].
  now rewrite length_map, IH.
Qed.

Lemma sphere_point_sq_norm (a : list R) : sq_norm (sphere_point a) = 1.
Proof.
  induction a as [|t a IH]; [unfold sq_norm; simpl; lra|].
  cbn [sphere_point]. rewrite sq_norm_cons, sq_norm_scale, IH.
  pose proof (sin2_cos2 t) as H. unfold Rsqr in H. lra.
Qed.

Lemma scaled_sphere_point_norm (c : R) (a : list R) :
  0 < c -> sqrt (sq_norm (map (Rmult c) (sphere_point a))) = c.
Proof.
  intros Hc. rewrite sq_norm_scale, sphere_point_sq_norm, Rmult_1_r.
  apply sqrt_square. lra.
Qed.

Lemma scaled_sphere_point_cons (c t : R) (a : list R) :
  map (Rmult c) (sphere_point (t :: a))
  = c * cos t :: map (Rmult (c * sin t)) (sphere_point a).
Proof.
  cbn [sphere_point map]. f_equal. rewrite map_map. apply map_ext. intros v. lra.
Qed.

Lemma cos_sin_not_both_zero (t : R) : cos t <> 0 \/ sin t <> 0.
Proof.
  destruct (Req_dec_T (cos t) 0) as [Hc|Hc]; [right|now left].
  intros Hs. pose proof (sin2_cos2 t) as H. unfold Rsqr in H. rewrite Hc, Hs in H. lra.
Qed.

(** The points of the parametrisation are away from the singularity, when
    the angles are in range. *)
Lemma sphere_point_tail_nonzero (a : list R) (c : R) :
  a <> [] -> angles_in_range a -> c <> 0 ->
  tail_nonzero (map (Rmult c) (sphere_point a)).
Proof.
  revert c. induction a as [|t a IH]; intros c Ha Hrange Hc; [done|].
  destruct a as [|t' a].
  - cbn [sphere_point map tail_nonzero].
    destruct (cos_sin_not_both_zero t) as [H|H]; [left|right]; nra.
  - destruct Hrange as [Ht Hrange]. rewrite scaled_sphere_point_cons.
    apply tail_nonzero_cons.
    + rewrite length_map, sphere_point_length. simpl. lia.
    + apply IH; [done | done |]. pose proof (sin_gt_0 t). nra.
Qed.

(** From the point of some angles back to the angles, whatever the radius. *)
Lemma sphere_angles_of_point (a : list R) (c : R) :
  a <> [] -> angles_in_range a -> 0 < c ->
  sphere_angles (map (Rmult c) (sphere_point a)) = a.
Proof.
  revert c. induction a as [|t a IH]; intros c Ha Hrange Hc; [done|].
  pose proof (scaled_sphere_point_norm c (t :: a) Hc) as Hnorm.
  destruct a as [|t' a].
  - (* the last angle, in (0, 2 pi) *)
    cbn [sphere_point map] in *. cbn [sphere_angles]. rewrite Hnorm.
    cbn [angles_in_range] in Hrange.
    replace (c * cos t / c) with (cos t) by (field; lra).
    destruct (Rlt_dec (c * (sin t * 1)) 0) as [Hneg|Hnn]; f_equal.
    + assert (Hsin : sin t < 0) by nra.
      assert (Ht : PI < t).
      { destruct (Rle_dec t PI) as [Hle|]; [|lra].
        pose proof (sin_ge_0 t). lra. }
      replace (cos t) with (cos (2 * PI - t)).
      * rewrite acos_cos by lra. lra.
      * replace (2 * PI - t) with (- t + 2 * INR 1 * PI) by (simpl; lra).
        now rewrite cos_period, cos_neg.
    + assert (Hsin : 0 <= sin t) by nra.
      assert (Ht : t <= PI).
      { destruct (Rle_dec t PI) as [|Hgt]; [done|].
        pose proof (sin_lt_0 t). lra. }
      apply acos_cos. lra.
  - (* an earlier angle, in (0, pi) *)
    destruct Hrange as [Ht Hrange].
    rewrite scaled_sphere_point_cons in *.
    rewrite sphere_angles_cons by (rewrite length_map, sphere_point_length; simpl; lia).
    rewrite Hnorm. replace (c * cos t / c) with (cos t) by (field; lra).
    rewrite acos_cos by lra. f_equal.
    apply IH; [done | done |]. pose proof (sin_gt_0 t). nra.
Qed.

Lemma snoc2_tail_nonzero (x' : list R) (u v : R) :
  tail_nonzero (x' ++ [u; v]) <-> u <> 0 \/ v <> 0.
Proof.
  induction x' as [|x0 x' IH]; [reflexivity|].
  cbn [app]. rewrite tail_nonzero_cons; [done|].
  rewrite length_app. simpl. lia.
Qed.

(** C5 as stated fails at the poles of the parametrisation: [(1, 0, 0)] is on
    the unit sphere, and [cartesian_to_angular] divides [0] by the norm [0] of
    its last two coordinates: the second angle is [nan], and the conversion
    back does not give [(1, 0, 0)]. *)
Lemma C5_pole_gives_nan :
  sq_norm [1; 0; 0] = 1 /\
  Metrics.cartesian_to_angular [1; 0; 0] = Return [Some (acos 1); None] /\
  (forall a, Metrics.cartesian_to_angular [1; 0; 0] = Return a ->
             Metrics.angular_to_cartesian a <> Return (map Some [1; 0; 0])).
Proof.
  assert (Hrun : Metrics.cartesian_to_angular [1; 0; 0] = Return [Some (acos 1); None]).
  { unfold Metrics.cartesian_to_angular, range. cbn [length Nat.sub seq for_loop replicate].
    unfold Metrics.cartesian_to_angular_step, Metrics.norm_from, np_sum.
    cbn [getitem lookup list_lookup bind drop map foldr].
    replace (1 * 1 + (0 * 0 + (0 * 0 + 0))) with 1 by lra.
    replace (0 * 0 + (0 * 0 + 0)) with 0 by lra.
    rewrite sqrt_1, sqrt_0. unfold np_divide.
    destruct (Req_dec_T 1 0) as [|_]; [lra|].
    destruct (Req_dec_T 0 0) as [_|]; [|lra].
    replace (1 / 1) with 1 by lra. cbn [np_arccos].
    destruct (Rle_dec (-1) 1); [|lra]. destruct (Rle_dec 1 1); [|lra].
    unfold setitem. cbn. unfold getlast. cbn.
    destruct (Rlt_dec 0 0); [lra|reflexivity]. }
  split; [unfold sq_norm; simpl; lra|]. split; [exact Hrun|].
  intros a Ha. rewrite Hrun in Ha. injection Ha as <-.
  unfold Metrics.angular_to_cartesian, range.
  cbn [length Nat.sub seq for_loop plus replicate].
  unfold Metrics.angular_to_cartesian_step, setitem.
  cbn. discriminate.
Qed.

(** C5 (amended): on a vector [x] of unit norm with at least two coordinates,
    the last two not both zero, [cartesian_to_angular] returns real angles
    from which [angular_to_cartesian] recovers [x], also when the last
    coordinate is negative; on angles [a], the last in [(0, 2 pi)] and the
    others in [(0, pi)], [angular_to_cartesian] returns a vector of unit norm
    from which [cartesian_to_angular] recovers [a]. *)
Theorem C5_angular_cartesian_round_trip (x' : list R) (u v : R) (a : list R) :
  (sq_norm (x' ++ [u; v]) = 1 -> u <> 0 \/ v <> 0 ->
   exists angles,
     Metrics.cartesian_to_angular (x' ++ [u; v]) = Return (map Some angles) /\
     Metrics.angular_to_cartesian (map Some angles) = Return (map Some (x' ++ [u; v]))) /\
  (a <> [] -> angles_in_range a ->
   exists x,
     Metrics.angular_to_cartesian (map Some a) = Return (map Some x) /\
     sq_norm x = 1 /\
     Metrics.cartesian_to_angular x = Return (map Some a)).
Proof.
  split.
  - intros Hunit Hnz. apply (proj2 (snoc2_tail_nonzero x' u v)) in Hnz.
    exists (sphere_angles (x' ++ [u; v])).
    split; [now apply cartesian_to_angular_real|].
    rewrite angular_to_cartesian_real, sphere_point_of_angles by done.
    rewrite Hunit, sqrt_1. do 2 f_equal.
    rewrite <- (map_id (x' ++ [u; v])) at 2. apply map_ext. intros w. lra.
  - intros Ha Hrange. exists (sphere_point a).
    split; [apply angular_to_cartesian_real|]. split; [apply sphere_point_sq_norm|].
    assert (Hscale : map (Rmult 1) (sphere_point a) = sphere_point a).
    { rewrite <- (map_id (sphere_point a)) at 2. apply map_ext. intros w. lra. }
    rewrite cartesian_to_angular_real.
    + rewrite <- Hscale, sphere_angles_of_point by (done || lra). reflexivity.
    + rewrite <- Hscale. apply sphere_point_tail_nonzero; (done || lra).
Qed.

Lemma C5_angular_cartesian_round_trip_witness :
  (exists angles,
     Metrics.cartesian_to_angular ([] ++ [0; -1]) = Return (map Some angles) /\
     Metrics.angular_to_cartesian (map Some angles) = Return (map Some ([] ++ [0; -1]))) /\
  (exists x,
     Metrics.angular_to_cartesian (map Some [PI / 2]) = Return (map Some x) /\
     sq_norm x = 1 /\
     Metrics.cartesian_to_angular x = Return (map Some [PI / 2])).
Proof.
  destruct (C5_angular_cartesian_round_trip [] 0 (-1) [PI / 2]) as [Hto Hfrom].
  split.
  - apply Hto; [unfold sq_norm; simpl; lra | right; lra].
  - apply Hfrom; [discriminate | simpl; pose proof PI_RGT_0; lra].
Defined.

(** * Further properties of the metrics *)

Lemma sq_diffs_cons (u v : R) (x y : list R) :
  np_sum (sq_diffs (u :: x) (v :: y)) = (u - v) * (u - v) + np_sum (sq_diffs x y).
Proof. reflexivity. Qed.

Lemma np_sum_sq_diffs_nonneg (x y : list R) : 0 <= np_sum (sq_diffs x y).
Proof.
  revert y. induction x as [|u x IH]; intros [|v y]; try (unfold sq_diffs; simpl; lra).
  rewrite sq_diffs_cons. specialize (IH y).
  pose proof (Rle_0_sqr (u - v)) as Hsq. unfold Rsqr in Hsq. lra.
Qed.

Lemma np_sum_sq_diffs_zero (x y : list R) :
  length x = length y -> np_sum (sq_diffs x y) = 0 -> x = y.
Proof.
  revert y. induction x as [|u x IH]; intros [|v y] Hlen; simpl in Hlen; try done.
  rewrite sq_diffs_cons. intros Hsum.
  pose proof (np_sum_sq_diffs_nonneg x y) as Hnn.
  pose proof (Rle_0_sqr (u - v)) as Hsq. unfold Rsqr in Hsq.
  assert (Huv : u = v).
  { assert (Hz : (u - v) * (u - v) = 0) by lra.
    apply Rmult_integral in Hz. lra. }
  subst v. f_equal. apply IH; [lia | lra].
Qed.

Lemma sq_diffs_comm (x y : list R) : sq_diffs x y = sq_diffs y x.
Proof.
  unfold sq_diffs. revert y. induction x as [|u x IH]; intros [|v y]; simpl; try done.
  rewrite IH. f_equal. lra.
Qed.

Lemma euclidean_eq (x y : list R) :
  length x = length y -> Metrics.euclidean x y = Return (np_sum (sq_diffs x y)).
Proof.
  intros Hlen. unfold Metrics.euclidean. rewrite decide_True by done.
  pose proof (zip_with_square x y) as Hsq. cbv zeta in *. now rewrite Hsq.
Qed.



(** X2: [euclidean] and [minkowski] do not depend on the order of their two
    arguments, whether they return or raise. *)
Theorem X2_euclidean_minkowski_symmetric (x y : list R) :
  Metrics.euclidean x y = Metrics.euclidean y x /\
  Metrics.minkowski x y = Metrics.minkowski y x.
Proof.
  destruct (decide (length x = length y)) as [Hlen|Hlen].
  - split.
    + rewrite !euclidean_eq by done. now rewrite sq_diffs_comm.
    + destruct x as [|x0 xs], y as [|y0 ys]; try done.
      simpl in Hlen. rewrite !minkowski_cons by lia.
      rewrite sq_diffs_comm. f_equal. lra.
  - split.
    + rewrite !euclidean_mismatch; done.
    + rewrite !minkowski_mismatch; done.
Qed.





(** X5: on two points of the same length with at least one spatial
    coordinate, [minkowski_periodic] never returns: whatever the periodic
    spec, it raises [UnboundLocalError] on [dz2], after padding the spec with
    [None] up to one entry per spatial coordinate. *)
Theorem X5_minkowski_periodic_never_returns (x y : list R) (L : list (option R)) :
  length x = length y -> (2 <= length x)%nat ->
  Metrics.minkowski_periodic x y L
  = (Raise (UnboundLocalError "dz2"),
     L ++ replicate (length x - 1 - length L) None).
Proof.
  intros Hlen Hx.
  pose proof (minkowski_periodic_unbound x y L Hlen Hx) as H1.
  pose proof (minkowski_periodic_final_L x y L (eq_sym Hlen)) as H2.
  destruct (Metrics.minkowski_periodic x y L) as [o l]. simpl in *. now subst.
Qed.

Lemma X5_minkowski_periodic_never_returns_witness :
  Metrics.minkowski_periodic [0; 1; 2] [3; 4; 5] [Some 10]
  = (Raise (UnboundLocalError "dz2"),
     [Some 10] ++ replicate (length [0; 1; 2] - 1 - length [Some 10]) None).
Proof.
  apply (X5_minkowski_periodic_never_returns [0; 1; 2] [3; 4; 5] [Some 10]);
    [reflexivity | simpl; lia].
Defined.

(** X6: a call of [minkowski_periodic] only ever appends [None] entries to
    the periodic spec (what was there stays, in place), and a second call
    with the same points appends nothing more. *)
Theorem X6_minkowski_periodic_padding_idempotent (x y : list R) (L : list (option R)) :
  let L1 := (Metrics.minkowski_periodic x y L).2 in
  (exists k, L1 = L ++ replicate k None) /\
  (Metrics.minkowski_periodic x y L1).2 = L1.
Proof.
  intros L1. subst L1. destruct (decide (length y = length x)) as [Hlen|Hlen].
  - rewrite !minkowski_periodic_final_L by done. split; [eauto|].
    rewrite length_app, length_replicate.
    replace (length x - 1 - (length L + (length x - 1 - length L)))%nat
      with 0%nat by lia.
    now rewrite app_nil_r.
  - rewrite !minkowski_periodic_mismatch by congruence. split; [|done].
    exists 0%nat. now rewrite app_nil_r.
Qed.

(** * Further properties of the coordinate conversions *)

Lemma np_sum_cons (v : R) (l : list R) : np_sum (v :: l) = v + np_sum l.
Proof. reflexivity. Qed.

Lemma np_dot_real (x y : list R) :
  np_dot (map Some x) (map Some y) = Some (np_sum (zip_with Rmult x y)).
Proof.
  unfold np_dot. revert y. induction x as [|u x IH]; intros [|v y]; try reflexivity.
  cbn [map zip_with foldr]. rewrite IH. reflexivity.
Qed.

(** The sum of the squares of [s * x_i - t * y_i] is not negative. *)
Lemma quadratic_form_nonneg (x y : list R) (s t : R) :
  length x = length y ->
  0 <= s * s * sq_norm x - 2 * s * t * np_sum (zip_with Rmult x y) + t * t * sq_norm y.
Proof.
  revert y. induction x as [|u x IH]; intros [|v y] Hlen; simpl in Hlen; try done.
  - unfold sq_norm. simpl. lra.
  - cbn [zip_with]. rewrite !sq_norm_cons, np_sum_cons.
    specialize (IH y ltac:(lia)).
    set (A := sq_norm x) in *. set (B := sq_norm y) in *.
    set (d := np_sum (zip_with Rmult x y)) in *. clearbody A B d.
    pose proof (Rle_0_sqr (s * u - t * v)) as Hsq. unfold Rsqr in Hsq. nra.
Qed.

(** Two unit vectors have a dot product between -1 and 1. *)
Lemma unit_dot_bounds (x y : list R) :
  length x = length y -> sq_norm x = 1 -> sq_norm y = 1 ->
  -1 <= np_sum (zip_with Rmult x y) <= 1.
Proof.
  intros Hlen Hx Hy.
  pose proof (quadratic_form_nonneg x y 1 1 Hlen) as H1.
  pose proof (quadratic_form_nonneg x y 1 (-1) Hlen) as H2.
  rewrite Hx, Hy in H1, H2. lra.
Qed.

Lemma dot_self (x : list R) : np_sum (zip_with Rmult x x) = sq_norm x.
Proof. now rewrite zip_with_self. Qed.

Lemma zip_with_Rmult_comm (x y : list R) : zip_with Rmult x y = zip_with Rmult y x.
Proof.
  revert y. induction x as [|u x IH]; intros [|v y]; simpl; try done.
  rewrite IH. f_equal. lra.
Qed.

Lemma spherical_real (x y : list R) :
  length x = length y ->
  Metrics.spherical x y
  = Return (Some (acos (np_sum (zip_with Rmult (sphere_point x) (sphere_point y))))).
Proof.
  intros Hlen. unfold Metrics.spherical. rewrite decide_True by done.
  rewrite !angular_to_cartesian_real. cbn [bind]. rewrite np_dot_real.
  cbn [np_arccos].
  destruct (unit_dot_bounds (sphere_point x) (sphere_point y)) as [Hlo Hhi].
  { rewrite !sphere_point_length. lia. }
  { apply sphere_point_sq_norm. }
  { apply sphere_point_sq_norm. }
  destruct (Rle_dec (-1) _); [|lra]. destruct (Rle_dec _ 1); [done|lra].
Qed.


(** X8: [cartesian_to_angular] on short vectors: the empty vector raises
    [ValueError] (an array of length -1 is asked for); a single coordinate
    gives no angle, and raises [IndexError] when it is negative (the
    reflection indexes the empty array of angles). *)
Theorem X8_cartesian_to_angular_short_vectors (v : R) :
  Metrics.cartesian_to_angular [] = Raise ValueError /\
  Metrics.cartesian_to_angular [v]
  = if Rlt_dec v 0 then Raise IndexError else Return [].
Proof.
  split; [reflexivity|].
  unfold Metrics.cartesian_to_angular, range, getlast. cbn.
  destruct (Rlt_dec v 0); reflexivity.
Qed.

Lemma sphere_angles_length (x : list R) : length (sphere_angles x) = (length x - 1)%nat.
Proof.
  induction x as [|x0 [|x1 [|x2 xs]] IH]; try reflexivity.
  rewrite sphere_angles_cons by (simpl; lia).
  cbn [length] in *. rewrite IH. lia.
Qed.

Lemma sphere_angles_bounds (x : list R) (i : nat) (t : R) :
  sphere_angles x !! i = Some t ->
  0 <= t <= 2 * PI /\ ((i < length (sphere_angles x) - 1)%nat -> t <= PI).
Proof.
  pose proof PI_RGT_0 as Hpi.
  revert i. induction x as [|x0 [|x1 [|x2 xs]] IH]; intros i; try done.
  - cbn [sphere_angles]. destruct i as [|i]; [|done]. cbn [lookup list_lookup].
    pose proof (acos_bound (x0 / sqrt (sq_norm [x0; x1]))) as Hb.
    intros [= <-]. split; [|simpl; lia].
    destruct (Rlt_dec x1 0); lra.
  - rewrite sphere_angles_cons by (simpl; lia).
    destruct i as [|i]; cbn [lookup list_lookup].
    + pose proof (acos_bound (x0 / sqrt (sq_norm (x0 :: x1 :: x2 :: xs)))) as Hb.
      intros [= <-]. split; [lra|]. intros _. lra.
    + intros Ht. destruct (IH i Ht) as [Hb Hlast]. split; [done|].
      cbn [length]. intros Hi. apply Hlast. lia.
Qed.



Lemma scaled_norm (c : R) (x : list R) :
  0 < c -> sqrt (sq_norm (map (Rmult c) x)) = c * sqrt (sq_norm x).
Proof.
  intros Hc. rewrite sq_norm_scale, sqrt_mult by (try nra; apply sq_norm_nonneg).
  now rewrite sqrt_square by lra.
Qed.

Lemma tail_nonzero_scale (c : R) (x : list R) :
  c <> 0 -> tail_nonzero x -> tail_nonzero (map (Rmult c) x).
Proof.
  intros Hc. induction x as [|x0 [|x1 [|x2 xs]] IH]; try done.
  cbn [map tail_nonzero]. intros [H|H]; [left|right]; nra.
Qed.

Lemma sphere_angles_scale (c : R) (x : list R) :
  0 < c -> tail_nonzero x -> sphere_angles (map (Rmult c) x) = sphere_angles x.
Proof.
  intros Hc. induction x as [|x0 xs IH]; [done|].
  destruct xs as [|x1 [|x2 xs]]; [done| |]; intros Hnz;
    pose proof (tail_nonzero_sq_norm _ Hnz) as Hpos;
    apply sqrt_lt_R0 in Hpos.
  - cbn [map sphere_angles].
    change [c * x0; c * x1] with (map (Rmult c) [x0; x1]).
    rewrite scaled_norm by done.
    replace (c * x0 / (c * sqrt (sq_norm [x0; x1])))
      with (x0 / sqrt (sq_norm [x0; x1])) by (field; lra).
    destruct (Rlt_dec (c * x1) 0), (Rlt_dec x1 0); try done; nra.
  - change (map (Rmult c) (x0 :: x1 :: x2 :: xs))
      with (c * x0 :: map (Rmult c) (x1 :: x2 :: xs)).
    rewrite !sphere_angles_cons by (rewrite ?length_map; simpl; lia).
    change (c * x0 :: map (Rmult c) (x1 :: x2 :: xs))
      with (map (Rmult c) (x0 :: x1 :: x2 :: xs)).
    rewrite scaled_norm by done.
    rewrite IH by (apply tail_nonzero_cons in Hnz; [done | simpl; lia]).
    f_equal. f_equal. field. lra.
Qed.





Lemma spherical_symmetric (x y : list R) : Metrics.spherical x y = Metrics.spherical y x.
Proof.
  destruct (decide (length x = length y)) as [Hlen|Hlen].
  - rewrite !spherical_real by done. now rewrite zip_with_Rmult_comm.
  - rewrite !spherical_mismatch; done.
Qed.

Lemma de_sitter_real (t s : R) (xs ys : list R) :
  length xs = length ys ->
  exists psi,
    Metrics.spherical xs ys = Return (Some psi) /\ 0 <= psi <= PI /\
    Metrics.de_sitter (t :: xs) (s :: ys) = Return (Some (psi * psi - (t - s) * (t - s))).
Proof.
  intros Hlen. eexists. split; [now apply spherical_real|].
  split; [apply acos_bound|].
  unfold Metrics.de_sitter. cbn [getitem lookup list_lookup bind drop].
  rewrite !drop_0, spherical_real by done. reflexivity.
Qed.

(** X12: [spherical] and [de_sitter] do not depend on the order of their two
    arguments, whether they return or raise. *)
Theorem X12_spherical_de_sitter_symmetric (x y : list R) :
  Metrics.spherical x y = Metrics.spherical y x /\
  Metrics.de_sitter x y = Metrics.de_sitter y x.
Proof.
  split; [apply spherical_symmetric|].
  destruct x as [|t xs], y as [|s ys]; try reflexivity.
  unfold Metrics.de_sitter. cbn [getitem lookup list_lookup bind drop].
  rewrite !drop_0, (spherical_symmetric xs ys).
  destruct (Metrics.spherical ys xs) as [dx| |]; cbn [bind]; try reflexivity.
  do 3 f_equal. lra.
Qed.



(** * Further properties of the causal graph *)

Lemma sq_norm_differences (x y : list R) :
  sq_norm (zip_with Rminus x y) = np_sum (sq_diffs x y).
Proof.
  unfold sq_norm, sq_diffs. revert y.
  induction x as [|u x IH]; intros [|v y]; simpl; try done. now rewrite IH.
Qed.

(** The squared distance from [a] to [c] through [b]. *)
Lemma sq_diffs_through (a b c : list R) :
  length a = length b -> length b = length c ->
  np_sum (sq_diffs a c)
  = np_sum (sq_diffs a b)
    + 2 * np_sum (zip_with Rmult (zip_with Rminus a b) (zip_with Rminus b c))
    + np_sum (sq_diffs b c).
Proof.
  revert b c. induction a as [|u a IH]; intros [|v b] [|w c] Hab Hbc;
    simpl in Hab, Hbc; try done.
  - unfold sq_diffs. simpl. lra.
  - cbn [zip_with]. rewrite !sq_diffs_cons, np_sum_cons, (IH b c) by lia. lra.
Qed.

(** Two timelike steps forward in time make a timelike step. *)
Lemma timelike_steps_compose (a b c : list R) (p q : R) :
  length a = length b -> length b = length c -> 0 < p -> 0 < q ->
  np_sum (sq_diffs a b) < p * p -> np_sum (sq_diffs b c) < q * q ->
  np_sum (sq_diffs a c) < (p + q) * (p + q).
Proof.
  intros Hab Hbc Hp Hq Hu Hv.
  rewrite (sq_diffs_through a b c Hab Hbc).
  pose proof (quadratic_form_nonneg (zip_with Rminus a b) (zip_with Rminus b c) q p) as Hquad.
  rewrite !sq_norm_differences in Hquad.
  rewrite !length_zip_with in Hquad. specialize (Hquad ltac:(lia)).
  pose proof (np_sum_sq_diffs_nonneg a b) as Hu0.
  pose proof (np_sum_sq_diffs_nonneg b c) as Hv0.
  set (U := np_sum (sq_diffs a b)) in *. set (V := np_sum (sq_diffs b c)) in *.
  set (d := np_sum (zip_with Rmult _ _)) in *. clearbody U V d.
  assert (Hd : d < p * q).
  { assert (H1 : q * q * U <= q * q * (p * p)) by nra.
    assert (H2 : p * p * V <= p * p * (q * q)) by nra.
    assert (H3 : q * q * U < q * q * (p * p) \/ U = p * p) by nra.
    assert (H4 : 2 * (p * q) * d < 2 * (p * q) * (p * q)) by nra.
    assert (Hpq : 0 < p * q) by nra. nra. }
  nra.
Qed.

Lemma precedes_transitive (D : nat) (Rm : list (list R)) (i j k : nat) :
  has_columns D Rm -> precedes Rm i j -> precedes Rm j k -> precedes Rm i k.
Proof.
  intros Hcols (Ri & Rj & ti & tj & s & Hi & Hj & Hti & Htj & Hlt & Hm & Hneg)
               (Rj' & Rk & tj' & tk & s' & Hj' & Hk & Htj' & Htk & Hlt' & Hm' & Hneg').
  rewrite Hj in Hj'. injection Hj' as <-. rewrite Htj in Htj'. injection Htj' as <-.
  destruct Ri as [|ti0 ri]; [done|]. destruct Rj as [|tj0 rj]; [done|].
  destruct Rk as [|tk0 rk]; [done|].
  simpl in Hti, Htj, Htk. injection Hti as ->. injection Htj as ->. injection Htk as ->.
  apply (has_columns_lookup D) in Hi as Hli; [|done].
  apply (has_columns_lookup D) in Hj as Hlj; [|done].
  apply (has_columns_lookup D) in Hk as Hlk; [|done].
  simpl in Hli, Hlj, Hlk.
  rewrite minkowski_cons in Hm, Hm' by lia.
  injection Hm as <-. injection Hm' as <-.
  exists (ti :: ri), (tk :: rk), ti, tk. eexists.
  split; [done|]. split; [done|]. split; [done|]. split; [done|].
  split; [lra|]. split; [apply minkowski_cons; lia|].
  pose proof (timelike_steps_compose ri rj rk (tj - ti) (tk - tj)) as H.
  specialize (H ltac:(lia) ltac:(lia) ltac:(lra) ltac:(lra) ltac:(lra) ltac:(lra)).
  lra.
Qed.

(** The edges of the graph built with [p = 1] and no periodic spec. *)
Lemma plain_graph_edges (D : nat) (Rm : list (list R)) (i j : nat) :
  has_columns D Rm ->
  (i, j) ∈ edges (add_edges_from
                    (causal_pairs Rm (range 0 (length Rm)) (range 0 (length Rm)))
                    (nodes_added Rm (range 0 (length Rm)) empty_graph))
  <-> precedes Rm i j.
Proof.
  intros Hcols. rewrite add_edges_from_edges, nodes_added_edges. cbn [empty_graph edges].
  rewrite elem_of_union, elem_of_list_to_set, elem_of_causal_pairs.
  rewrite <- (causal_pair_precedes D) by done. unfold range. rewrite Nat.sub_0_r. split.
  - intros [(_ & _ & H)|H]; [done | now apply not_elem_of_empty in H].
  - intros H. left. repeat split; try done.
    + apply elem_of_seq. unfold causal_pair in H.
      destruct (Rm !! i) eqn:Hi; [|discriminate].
      apply lookup_lt_Some in Hi. lia.
    + apply elem_of_seq. unfold causal_pair in H.
      destruct (Rm !! i) as [[|? ?]|]; try discriminate.
      destruct (Rm !! j) eqn:Hj; [|discriminate].
      apply lookup_lt_Some in Hj. lia.
Qed.



(** X15: on a matrix whose rows have no coordinate at all, [causal_set_graph]
    raises [IndexError] at the first time coordinate it reads, whatever [p]
    and [periodic], and leaves the generator and the periodic spec untouched;
    on a matrix without rows it returns the empty graph. *)
Theorem X15_causal_set_graph_no_columns (Rm : list (list R)) (p : R)
    (periodic : option (list (option R))) (g : rng) :
  has_columns 0 Rm ->
  CausalSet.causal_set_graph Rm p periodic g
  = (match Rm with
     | [] => Return empty_graph
     | _ :: _ => Raise IndexError
     end, (g, periodic)).
Proof.
  intros Hcols. destruct Rm as [|row Rm]; [reflexivity|].
  inversion Hcols as [|? ? Hrow _]; subst. destruct row; [|done].
  reflexivity.
Qed.

Lemma X15_causal_set_graph_no_columns_witness :
  CausalSet.causal_set_graph [[]; []] 0.5 (Some [Some 1]) (fun _ => 0)
  = (Raise IndexError, (fun _ => 0, Some [Some 1])).
Proof.
  apply (X15_causal_set_graph_no_columns [[]; []] 0.5 (Some [Some 1]) (fun _ => 0)).
  repeat constructor.
Defined.

Section AnyProbability.

(** The loops of [causal_set_graph] without a periodic spec, for any [p]: the
    generator may be advanced, and [Inv] is any property of the generator
    that drawing a number preserves. *)
Variables (D : nat) (Rm : list (list R)) (p : R) (Inv : rng -> Prop).
Hypothesis Hcols : has_columns D Rm.
Hypothesis HD : (1 <= D)%nat.
Hypothesis Hdraw : forall g, Inv g -> Inv (fun n => g (S n)).

Lemma causal_set_graph_pair_noperiodic (i j : nat) (el : list (nat * nat)) (g : rng) :
  (i < length Rm)%nat -> (j < length Rm)%nat -> Inv g ->
  exists el' g',
    CausalSet.causal_set_graph_pair Rm p i j el (g, None) = (Return el', (g', None)) /\
    Inv g' /\
    (el' = el \/
     (el' = el ++ [(i, j)] /\ causal_pair Rm i j = true /\
      (p = 1 \/ exists g0, Inv g0 /\ p > g0 0%nat))).
Proof.
  intros Hi Hj Hg.
  destruct (row_with_time D Rm i Hcols HD Hi) as (ti & ri & Hri & Hleni).
  destruct (row_with_time D Rm j Hcols HD Hj) as (tj & rj & Hrj & Hlenj).
  unfold CausalSet.causal_set_graph_pair, causal_pair.
  rewrite Hri, Hrj, (getitem_Some _ _ _ Hri), (getitem_Some _ _ _ Hrj).
  unfold st_bind, lift, st_ret, CausalSet.with_rng, np_random_random.
  cbn [getitem lookup list_lookup fst snd CausalSet.periodic_given].
  rewrite minkowski_cons by congruence.
  destruct (Rlt_dec ti tj) as [Hlt|Hge]; [|eauto 6].
  destruct (Req_dec_T p 1) as [Hp|Hp].
  - cbn [CausalSet.periodic_given snd]. destruct (Rlt_dec _ 0); eauto 10.
  - cbn [fst snd]. destruct (Rgt_dec p (g 0%nat)) as [Hacc|Hrej].
    + cbn [CausalSet.periodic_given snd]. destruct (Rlt_dec _ 0).
      * eexists _, _. split; [reflexivity|]. split; [now apply Hdraw|].
        right. split; [done|]. split; [done|]. right. eauto.
      * eexists _, _. split; [reflexivity|]. split; [now apply Hdraw|]. now left.
    + eexists _, _. split; [reflexivity|]. split; [now apply Hdraw|]. now left.
Qed.

Lemma causal_set_graph_inner_noperiodic (i : nat) (js : list nat)
    (el : list (nat * nat)) (g : rng) :
  (i < length Rm)%nat -> Forall (fun j => (j < length Rm)%nat) js -> Inv g ->
  exists extra g',
    st_for (CausalSet.causal_set_graph_pair Rm p i) js el (g, None)
    = (Return (el ++ extra), (g', None)) /\
    Inv g' /\
    Forall (fun e => (e.1 < length Rm)%nat /\ (e.2 < length Rm)%nat /\
                     causal_pair Rm e.1 e.2 = true /\
                     (p = 1 \/ exists g0, Inv g0 /\ p > g0 0%nat)) extra.
Proof.
  intros Hi Hjs. revert el g.
  induction Hjs as [|j js Hj Hjs IH]; intros el g Hg; cbn [st_for].
  - exists [], g. unfold st_ret. rewrite app_nil_r. auto.
  - unfold st_bind.
    destruct (causal_set_graph_pair_noperiodic i j el g Hi Hj Hg)
      as (el' & g1 & -> & Hg1 & Hel').
    destruct (IH el' g1 Hg1) as (extra & g' & -> & Hg' & Hextra).
    destruct Hel' as [->|(-> & Hc & Hp)].
    + eauto.
    + exists ((i, j) :: extra), g'. rewrite <- app_assoc. split; [done|].
      split; [done|]. constructor; [|done]. cbn [fst snd]. auto.
Qed.

Lemma causal_set_graph_outer_noperiodic (is_ : list nat) (G : DiGraph)
    (el : list (nat * nat)) (g : rng) :
  Forall (fun i => (i < length Rm)%nat) is_ -> Inv g ->
  exists extra g',
    st_for (CausalSet.causal_set_graph_row Rm p (length Rm)) is_ (G, el) (g, None)
    = (Return (nodes_added Rm is_ G, el ++ extra), (g', None)) /\
    Inv g' /\
    Forall (fun e => (e.1 < length Rm)%nat /\ (e.2 < length Rm)%nat /\
                     causal_pair Rm e.1 e.2 = true /\
                     (p = 1 \/ exists g0, Inv g0 /\ p > g0 0%nat)) extra.
Proof.
  intros His. revert G el g.
  induction His as [|i is_ Hi His IH]; intros G el g Hg;
    cbn [st_for nodes_added fold_left].
  - exists [], g. unfold st_ret. rewrite app_nil_r. auto.
  - unfold st_bind at 1. unfold CausalSet.causal_set_graph_row at 1.
    destruct (lookup_lt_is_Some_2 Rm i Hi) as [Ri HRi].
    rewrite (getitem_Some _ _ _ HRi), HRi.
    unfold st_bind at 1. unfold lift at 1. unfold st_bind at 1.
    destruct (causal_set_graph_inner_noperiodic i (range 0 (length Rm)) el g Hi)
      as (extra1 & g1 & Hrun & Hg1 & Hextra1); [|done|].
    { unfold range. apply Forall_forall. intros j Hj. apply elem_of_seq in Hj. lia. }
    cbn [fst snd]. rewrite Hrun. unfold st_ret at 1.
    destruct (IH (add_node i Ri G) (el ++ extra1) g1 Hg1)
      as (extra2 & g' & Hrun2 & Hg' & Hextra2).
    fold (nodes_added Rm is_ (add_node i Ri G)). rewrite Hrun2.
    exists (extra1 ++ extra2), g'. rewrite app_assoc. split; [done|].
    split; [done|]. now apply Forall_app.
Qed.

(** The graph returned without a periodic spec, for any [p]. *)
Lemma causal_set_graph_noperiodic (g : rng) :
  Inv g ->
  exists el g',
    CausalSet.causal_set_graph Rm p None g
    = (Return (add_edges_from el (nodes_added Rm (range 0 (length Rm)) empty_graph)),
       (g', None)) /\
    Inv g' /\
    Forall (fun e => (e.1 < length Rm)%nat /\ (e.2 < length Rm)%nat /\
                     causal_pair Rm e.1 e.2 = true /\
                     (p = 1 \/ exists g0, Inv g0 /\ p > g0 0%nat)) el.
Proof.
  intros Hg. unfold CausalSet.causal_set_graph, st_bind.
  destruct (causal_set_graph_outer_noperiodic (range 0 (length Rm)) empty_graph [] g)
    as (el & g' & Hrun & Hg' & Hel); [|done|].
  { unfold range. apply Forall_forall. intros i Hi. apply elem_of_seq in Hi. lia. }
  rewrite Hrun. exists el, g'. auto.
Qed.

End AnyProbability.

Lemma graph_nodes_of_rows (Rm : list (list R)) (el : list (nat * nat)) (i : nat) :
  Forall (fun e => (e.1 < length Rm)%nat /\ (e.2 < length Rm)%nat) el ->
  nodes (add_edges_from el (nodes_added Rm (range 0 (length Rm)) empty_graph)) !! i
  = Some <$> Rm !! i.
Proof.
  intros Hel. unfold range. rewrite Nat.sub_0_r, add_edges_from_nodes.
  - rewrite nodes_added_seq by lia. case_decide as Hi; [done|].
    rewrite lookup_ge_None_2 by lia. done.
  - eapply Forall_impl; [exact Hel|]. intros [u v] [Hu Hv]. cbn [fst snd] in *.
    rewrite !nodes_added_seq by lia. rewrite !decide_True by lia.
    destruct (lookup_lt_is_Some_2 Rm u Hu) as [? ->].
    destruct (lookup_lt_is_Some_2 Rm v Hv) as [? ->].
    split; eexists; reflexivity.
Qed.

(** X16: without a periodic spec and for any inclusion probability [p] and
    any generator, [causal_set_graph] on an N x D matrix with [D >= 1]
    returns a graph whose nodes are [0..N-1] with their points and whose
    edges all go between causally related points ([R[i,0] < R[j,0]] and
    [minkowski(R[i], R[j]) < 0]); the graph is acyclic. *)
Theorem X16_causal_set_graph_any_p_is_dag (D : nat) (Rm : list (list R)) (p : R)
    (g : rng) :
  has_columns D Rm -> (1 <= D)%nat ->
  exists G g',
    CausalSet.causal_set_graph Rm p None g = (Return G, (g', None)) /\
    (forall i, nodes G !! i = Some <$> Rm !! i) /\
    (forall i j, (i, j) ∈ edges G -> precedes Rm i j) /\
    acyclic G.
Proof.
  intros Hcols HD.
  destruct (causal_set_graph_noperiodic D Rm p (fun _ => True) Hcols HD
              ltac:(done) g I) as (el & g' & Hrun & _ & Hel).
  eexists _, g'. split; [exact Hrun|].
  assert (Hedges : forall i j,
    (i, j) ∈ edges (add_edges_from el (nodes_added Rm (range 0 (length Rm)) empty_graph))
    -> precedes Rm i j).
  { intros i j. rewrite add_edges_from_edges, nodes_added_edges. cbn [empty_graph edges].
    rewrite elem_of_union, elem_of_list_to_set. intros [Hij|Hij].
    - rewrite Forall_forall in Hel. destruct (Hel _ Hij) as (_ & _ & Hc & _).
      now apply (causal_pair_precedes D).
    - now apply not_elem_of_empty in Hij. }
  split; [|split; [exact Hedges|]].
  - intros i. apply graph_nodes_of_rows.
    eapply Forall_impl; [exact Hel|]. intros e (H1 & H2 & _). auto.
  - intros i Hwalk.
    destruct (walk_forward_in_time Rm _
                (fun u v Huv => precedes_time Rm u v (Hedges u v Huv)) i i Hwalk)
      as (t & t' & Ht & Ht' & Hlt).
    rewrite Ht in Ht'. injection Ht' as <-. lra.
Qed.

Lemma X16_causal_set_graph_any_p_is_dag_witness :
  exists G g',
    CausalSet.causal_set_graph [[0; 0]; [1; 0]; [2; 0]] 0.5 None (fun n => INR n / 4)
    = (Return G, (g', None)) /\
    (forall i, nodes G !! i = Some <$> [[0; 0]; [1; 0]; [2; 0]] !! i) /\
    (forall i j, (i, j) ∈ edges G -> precedes [[0; 0]; [1; 0]; [2; 0]] i j) /\
    acyclic G.
Proof.
  apply (X16_causal_set_graph_any_p_is_dag 2 [[0; 0]; [1; 0]; [2; 0]] 0.5
           (fun n => INR n / 4)).
  - repeat constructor.
  - lia.
Defined.

(** X17: when [p] is not 1 and no number that the generator yields is below
    [p] (as for [p = 0] and draws in [[0, 1)]), no candidate edge is
    accepted: the graph returned has no edge. *)
Theorem X17_causal_set_graph_p_too_small (D : nat) (Rm : list (list R)) (p : R)
    (g : rng) :
  has_columns D Rm -> (1 <= D)%nat ->
  p <> 1 -> (forall n, p <= g n) ->
  exists G g',
    CausalSet.causal_set_graph Rm p None g = (Return G, (g', None)) /\
    edges G = ∅.
Proof.
  intros Hcols HD Hp Hg.
  destruct (causal_set_graph_noperiodic D Rm p (fun g0 => forall n, p <= g0 n) Hcols HD
              ltac:(intros g0 H0 n; apply H0) g Hg) as (el & g' & Hrun & _ & Hel).
  eexists _, g'. split; [exact Hrun|].
  destruct el as [|e el].
  - rewrite add_edges_from_edges, nodes_added_edges. cbn [empty_graph edges].
    now rewrite list_to_set_nil, (left_id_L ∅ (∪)).
  - inversion Hel as [|? ? (_ & _ & _ & [H1|(g0 & H0 & Hlt)]) _]; subst; [done|].
    specialize (H0 0%nat). lra.
Qed.

Lemma X17_causal_set_graph_p_too_small_witness :
  exists G g',
    CausalSet.causal_set_graph [[0; 0]; [1; 0]; [2; 0]] 0 None (fun n => INR n / 4)
    = (Return G, (g', None)) /\
    edges G = ∅.
Proof.
  apply (X17_causal_set_graph_p_too_small 2 [[0; 0]; [1; 0]; [2; 0]] 0
           (fun n => INR n / 4)).
  - repeat constructor.
  - lia.
  - lra.
  - intros n. pose proof (pos_INR n). lra.
Defined.

Section WithPeriodicSpec.

(** The loops of [causal_set_graph] with [p = 1] and a non-empty periodic
    spec, on rows with at least one spatial coordinate. *)
Variables (D : nat) (Rm : list (list R)).
Hypothesis Hcols : has_columns D Rm.
Hypothesis HD : (2 <= D)%nat.

Lemma causal_set_graph_pair_periodic (i j : nat) (el : list (nat * nat)) (g : rng)
    (l : option R) (L : list (option R)) :
  (i < length Rm)%nat -> (j < length Rm)%nat ->
  exists ti tj,
    time_of Rm i = Some ti /\ time_of Rm j = Some tj /\
    if Rlt_dec ti tj
    then (CausalSet.causal_set_graph_pair Rm 1 i j el (g, Some (l :: L))).1
         = Raise (UnboundLocalError "dz2")
    else CausalSet.causal_set_graph_pair Rm 1 i j el (g, Some (l :: L))
         = (Return el, (g, Some (l :: L))).
Proof.
  intros Hi Hj.
  destruct (row_with_time D Rm i Hcols ltac:(lia) Hi) as (ti & ri & Hri & Hleni).
  destruct (row_with_time D Rm j Hcols ltac:(lia) Hj) as (tj & rj & Hrj & Hlenj).
  exists ti, tj. unfold time_of. rewrite Hri, Hrj. cbn [mbind option_bind lookup list_lookup].
  split; [done|]. split; [done|].
  unfold CausalSet.causal_set_graph_pair.
  rewrite (getitem_Some _ _ _ Hri), (getitem_Some _ _ _ Hrj).
  unfold st_bind, lift, st_ret. cbn [getitem lookup list_lookup].
  destruct (Rlt_dec ti tj) as [Hlt|Hge]; [|reflexivity].
  destruct (Req_dec_T 1 1) as [_|Hne]; [|lra].
  cbn [CausalSet.periodic_given snd]. unfold CausalSet.call_minkowski_periodic.
  cbn [snd fst].
  pose proof (minkowski_periodic_unbound (ti :: ri) (tj :: rj) (l :: L)) as Hraise.
  destruct (Metrics.minkowski_periodic (ti :: ri) (tj :: rj) (l :: L)) as [o L'].
  cbn [fst] in *. rewrite Hraise by (simpl; lia). reflexivity.
Qed.

Lemma causal_set_graph_inner_periodic (i : nat) (js : list nat) (el : list (nat * nat))
    (g : rng) (l : option R) (L : list (option R)) :
  (i < length Rm)%nat -> Forall (fun j => (j < length Rm)%nat) js ->
  (Forall (fun j => forall ti tj, time_of Rm i = Some ti -> time_of Rm j = Some tj ->
                                  ~ ti < tj) js ->
   st_for (CausalSet.causal_set_graph_pair Rm 1 i) js el (g, Some (l :: L))
   = (Return el, (g, Some (l :: L)))) /\
  (Exists (fun j => exists ti tj, time_of Rm i = Some ti /\ time_of Rm j = Some tj /\
                                  ti < tj) js ->
   (st_for (CausalSet.causal_set_graph_pair Rm 1 i) js el (g, Some (l :: L))).1
   = Raise (UnboundLocalError "dz2")).
Proof.
  intros Hi Hjs. induction Hjs as [|j js Hj Hjs [IHnone IHsome]]; cbn [st_for].
  - split; [reflexivity|]. intros H. inversion H.
  - destruct (causal_set_graph_pair_periodic i j el g l L Hi Hj)
      as (ti & tj & Hti & Htj & Hstep).
    unfold st_bind. destruct (Rlt_dec ti tj) as [Hlt|Hge].
    + split.
      * intros Hall. inversion Hall as [|? ? Hhead _]; subst.
        exfalso. exact (Hhead ti tj Hti Htj Hlt).
      * intros _.
        destruct (CausalSet.causal_set_graph_pair Rm 1 i j el _) as [o s].
        cbn [fst] in Hstep. now subst o.
    + rewrite Hstep. split.
      * intros Hall. inversion Hall; subst. now apply IHnone.
      * intros Hex. inversion Hex as [? ? (ti' & tj' & Hti' & Htj' & Hlt)|]; subst.
        -- rewrite Hti in Hti'. rewrite Htj in Htj'.
           injection Hti' as <-. injection Htj' as <-. lra.
        -- now apply IHsome.
Qed.

Lemma causal_set_graph_outer_periodic (is_ : list nat) (G : DiGraph)
    (el : list (nat * nat)) (g : rng) (l : option R) (L : list (option R)) :
  Forall (fun i => (i < length Rm)%nat) is_ ->
  (Forall (fun i => forall j ti tj, (j < length Rm)%nat ->
                      time_of Rm i = Some ti -> time_of Rm j = Some tj -> ~ ti < tj) is_ ->
   st_for (CausalSet.causal_set_graph_row Rm 1 (length Rm)) is_ (G, el) (g, Some (l :: L))
   = (Return (nodes_added Rm is_ G, el), (g, Some (l :: L)))) /\
  (Exists (fun i => exists j ti tj, (j < length Rm)%nat /\
                      time_of Rm i = Some ti /\ time_of Rm j = Some tj /\ ti < tj) is_ ->
   (st_for (CausalSet.causal_set_graph_row Rm 1 (length Rm)) is_ (G, el)
           (g, Some (l :: L))).1
   = Raise (UnboundLocalError "dz2")).
Proof.
  intros His. revert G.
  assert (Hrange : Forall (fun j => (j < length Rm)%nat) (range 0 (length Rm))).
  { unfold range. apply Forall_forall. intros j Hj. apply elem_of_seq in Hj. lia. }
  induction His as [|i is_ Hi His IH]; intros G.
  - split; [reflexivity|]. intros H. inversion H.
  - destruct (lookup_lt_is_Some_2 Rm i Hi) as [Ri HRi].
    destruct (IH (add_node i Ri G)) as [IHnone IHsome]. clear IH.
    destruct (causal_set_graph_inner_periodic i (range 0 (length Rm)) el g l L Hi Hrange)
      as [Hnone Hsome].
    assert (Hstep :
      st_for (CausalSet.causal_set_graph_row Rm 1 (length Rm)) (i :: is_) (G, el)
             (g, Some (l :: L))
      = match st_for (CausalSet.causal_set_graph_pair Rm 1 i) (range 0 (length Rm)) el
                     (g, Some (l :: L)) with
        | (Return el', s') =>
            st_for (CausalSet.causal_set_graph_row Rm 1 (length Rm)) is_
                   (add_node i Ri G, el') s'
        | (Raise e, s') => (Raise e, s')
        | (OutOfFuel, s') => (OutOfFuel, s')
        end).
    { cbn [st_for]. unfold st_bind at 1. unfold CausalSet.causal_set_graph_row at 1.
      rewrite (getitem_Some _ _ _ HRi).
      unfold st_bind at 1. unfold lift at 1. unfold st_bind at 1. cbn [fst snd].
      destruct (st_for (CausalSet.causal_set_graph_pair Rm 1 i) _ el _) as [[el'| |] s'];
        reflexivity. }
    rewrite Hstep. cbn [nodes_added fold_left]. rewrite HRi.
    fold (nodes_added Rm is_ (add_node i Ri G)).
    destruct (Stdlib.Logic.Classical_Prop.classic (Exists (fun j => exists ti tj,
                time_of Rm i = Some ti /\ time_of Rm j = Some tj /\ ti < tj)
                (range 0 (length Rm)))) as [Hex|Hnex].
    + specialize (Hsome Hex). split.
      * intros Hall. inversion Hall as [|? ? Hhead _]; subst. exfalso.
        apply Exists_exists in Hex as (j & Hj & ti & tj & Hti & Htj & Hlt).
        unfold range in Hj. apply elem_of_seq in Hj.
        apply (Hhead j ti tj); [lia | done | done | done].
      * intros _.
        destruct (st_for (CausalSet.causal_set_graph_pair Rm 1 i) _ el _) as [o s].
        cbn [fst] in Hsome. subst o. reflexivity.
    + rewrite Hnone.
      2:{ apply Forall_forall. intros j Hj ti tj Hti Htj Hlt. apply Hnex.
          apply Exists_exists. exists j. split; [done|]. eauto. }
      split.
      * intros Hall. inversion Hall; subst. now apply IHnone.
      * intros Hex. inversion Hex as [? ? (j & ti & tj & Hj & Hti & Htj & Hlt)|]; subst.
        -- exfalso. apply Hnex. apply Exists_exists. exists j. split; [|eauto].
           unfold range. apply elem_of_seq. lia.
        -- now apply IHsome.
Qed.

End WithPeriodicSpec.

(** X18: with [p = 1], a non-empty periodic spec and at least one spatial
    coordinate, [causal_set_graph] returns no graph as soon as two points
    have different time coordinates: the first such pair reaches
    [minkowski_periodic], which raises [UnboundLocalError]. *)
Theorem X18_causal_set_graph_periodic_fails (D : nat) (Rm : list (list R))
    (l : option R) (L : list (option R)) (g : rng) (i j : nat) (ti tj : R) :
  has_columns D Rm -> (2 <= D)%nat ->
  time_of Rm i = Some ti -> time_of Rm j = Some tj -> ti <> tj ->
  (CausalSet.causal_set_graph Rm 1 (Some (l :: L)) g).1
  = Raise (UnboundLocalError "dz2").
Proof.
  intros Hcols HD Hti Htj Hne.
  assert (Hi : (i < length Rm)%nat).
  { unfold time_of in Hti. destruct (Rm !! i) eqn:E; [|done]. now apply lookup_lt_Some in E. }
  assert (Hj : (j < length Rm)%nat).
  { unfold time_of in Htj. destruct (Rm !! j) eqn:E; [|done]. now apply lookup_lt_Some in E. }
  unfold CausalSet.causal_set_graph, st_bind.
  destruct (causal_set_graph_outer_periodic D Rm Hcols HD (range 0 (length Rm))
              empty_graph [] g l L) as [_ Hsome].
  { unfold range. apply Forall_forall. intros k Hk. apply elem_of_seq in Hk. lia. }
  destruct (st_for _ (range 0 (length Rm)) (empty_graph, []) _) as [o s].
  cbn [fst] in Hsome. rewrite Hsome; [reflexivity|].
  apply Exists_exists. unfold range.
  destruct (Rlt_dec ti tj) as [Hlt|Hge].
  - exists i. split; [apply elem_of_seq; lia|]. exists j, ti, tj. auto.
  - exists j. split; [apply elem_of_seq; lia|]. exists i, tj, ti.
    repeat split; try done. lra.
Qed.

Lemma X18_causal_set_graph_periodic_fails_witness :
  (CausalSet.causal_set_graph [[0; 0]; [1; 0]] 1 (Some [Some 10]) (fun _ => 0)).1
  = Raise (UnboundLocalError "dz2").
Proof.
  apply (X18_causal_set_graph_periodic_fails 2 [[0; 0]; [1; 0]] (Some 10) []
           (fun _ => 0) 0 1 0 1).
  - repeat constructor.
  - lia.
  - reflexivity.
  - reflexivity.
  - lra.
Defined.

(** * Further properties of the samplers *)

(** X19: a [method] other than ['scatter'] and ['map'] makes
    [minkowski_interval] and [de_sitter_interval] fail their last assertion,
    with a message that names the method, before any number is drawn. *)
Theorem X19_unknown_method_rejected (fuel N D : nat) (KT2 : R) (fix_ends : bool)
    (method : string) (g : rng) :
  method <> "scatter" -> method <> "map" ->
  CausalSet.minkowski_interval fuel N D fix_ends method g
  = (Raise (AssertionError
       ("Invalid method " +:+ method +:+ " given to minkowski_interval")), g) /\
  CausalSet.de_sitter_interval fuel N D KT2 fix_ends method g
  = (Raise (AssertionError
       ("Invalid method " +:+ method +:+ " given to de_sitter_interval")), g).
Proof.
  intros Hs Hm. apply String.eqb_neq in Hs, Hm.
  unfold CausalSet.minkowski_interval, CausalSet.de_sitter_interval.
  rewrite Hs, Hm. split; reflexivity.
Qed.

Lemma X19_unknown_method_rejected_witness :
  CausalSet.minkowski_interval 3 5 2 true "grid" (fun _ => 0)
  = (Raise (AssertionError "Invalid method grid given to minkowski_interval"),
     fun _ => 0) /\
  CausalSet.de_sitter_interval 3 5 2 1 true "grid" (fun _ => 0)
  = (Raise (AssertionError "Invalid method grid given to de_sitter_interval"),
     fun _ => 0).
Proof.
  apply (X19_unknown_method_rejected 3 5 2 1 true "grid" (fun _ => 0)); discriminate.
Defined.

(** X20: the scatter method raises [IndexError] when the points have no
    coordinate ([D = 0]: the end point has no time coordinate to set), and
    when [fix_ends] asks for two fixed rows that the matrix does not have
    ([N < 2]). *)
Theorem X20_scatter_degenerate_sizes (fuel N D : nat) (fix_ends : bool) (g : rng) :
  D = 0%nat \/ (fix_ends = true /\ (N < 2)%nat) ->
  (CausalSet.minkowski_interval fuel N D fix_ends "scatter" g).1 = Raise IndexError.
Proof.
  intros Hcase. unfold CausalSet.minkowski_interval.
  cbn [String.eqb Ascii.eqb Bool.eqb]. unfold CausalSet.minkowski_interval_scatter.
  unfold st_bind at 1, np_random_matrix at 1.
  destruct D as [|D].
  - reflexivity.
  - destruct Hcase as [|[-> HN]]; [done|].
    rewrite interval_end_eq by lia.
    unfold st_bind at 1, lift at 1. unfold st_bind at 1.
    destruct N as [|[|N]]; [reflexivity | reflexivity | lia].
Qed.

Lemma X20_scatter_degenerate_sizes_witness :
  (CausalSet.minkowski_interval 4 1 3 true "scatter" (fun _ => 0.5)).1 = Raise IndexError.
Proof.
  apply (X20_scatter_degenerate_sizes 4 1 3 true (fun _ => 0.5)).
  right. split; [reflexivity | lia].
Defined.

(** The rows that the scatter method returns, for any [N]. *)
Lemma scatter_rows_inside (fuel N D : nat) (fix_ends : bool) (g g' : rng)
    (Rm : list (list R)) :
  (1 <= D)%nat ->
  CausalSet.minkowski_interval_scatter fuel N D fix_ends g = (Return Rm, g') ->
  length Rm = N /\
  forall r, r ∈ Rm ->
    inside_interval (0 :: replicate (D - 1) 0.5) (1 :: replicate (D - 1) 0.5) r.
Proof.
  intros HD. unfold CausalSet.minkowski_interval_scatter.
  unfold st_bind at 1, np_random_matrix at 1.
  set (Rm0 := map _ (seq 0 N)).
  assert (Hlen0 : length Rm0 = N) by (unfold Rm0; now rewrite length_map, length_seq).
  rewrite interval_start_eq, interval_end_eq by done.
  set (a := 0 :: replicate (D - 1) 0.5). set (b := 1 :: replicate (D - 1) 0.5).
  unfold st_bind at 1, lift at 1.
  destruct fix_ends.
  - unfold st_bind at 1. unfold st_bind at 1, lift at 1.
    unfold setitem at 1. case_decide as H0; [|discriminate].
    unfold st_bind at 1, lift at 1.
    unfold setitem at 1. case_decide as H1; [|discriminate].
    rewrite length_insert in H1.
    unfold st_ret at 1. cbn [fst snd].
    intros Hrun. apply resample_rows_return in Hrun as (Hlen & Hother & Hrows).
    rewrite !length_insert in Hlen. split; [congruence|].
    intros r Hr. apply list_elem_of_lookup in Hr as [k Hk].
    assert (Hk' : (k < N)%nat) by (apply lookup_lt_Some in Hk; lia).
    destruct (decide (k = 0%nat)) as [->|Hk0].
    { rewrite Hother in Hk by (unfold range; rewrite elem_of_seq; lia).
      rewrite list_lookup_insert_ne in Hk by lia.
      rewrite list_lookup_insert_eq in Hk by lia. injection Hk as <-.
      apply (interval_ends_inside 0); lra. }
    destruct (decide (k = 1%nat)) as [->|Hk1].
    { rewrite Hother in Hk by (unfold range; rewrite elem_of_seq; lia).
      rewrite list_lookup_insert_eq in Hk by (rewrite length_insert; lia).
      injection Hk as <-. apply (interval_ends_inside 1); lra. }
    destruct (Hrows k) as (row & Hrow & Hin).
    { unfold range. apply elem_of_seq. lia. }
    replace r with row by congruence. exact Hin.
  - unfold st_bind at 1, st_ret at 1. cbn [fst snd].
    intros Hrun. apply resample_rows_return in Hrun as (Hlen & Hother & Hrows).
    split; [congruence|].
    intros r Hr. apply list_elem_of_lookup in Hr as [k Hk].
    assert (Hk' : (k < N)%nat) by (apply lookup_lt_Some in Hk; lia).
    destruct (Hrows k) as (row & Hrow & Hin).
    { unfold range. apply elem_of_seq. lia. }
    replace r with row by congruence. exact Hin.
Qed.

Lemma sq_diffs_entry_le (xs ys : list R) (k : nat) (x y : R) :
  xs !! k = Some x -> ys !! k = Some y ->
  (x - y) * (x - y) <= np_sum (sq_diffs xs ys).
Proof.
  revert ys k. induction xs as [|u xs IH]; intros [|v ys] k Hx Hy; try done.
  rewrite sq_diffs_cons. pose proof (np_sum_sq_diffs_nonneg xs ys) as Hnn.
  destruct k as [|k]; simpl in Hx, Hy.
  - injection Hx as ->. injection Hy as ->. lra.
  - specialize (IH ys k Hx Hy).
    pose proof (Rle_0_sqr (u - v)) as Hsq. unfold Rsqr in Hsq. lra.
Qed.

(** What the two tests of the scatter method say about a row. *)
Lemma inside_interval_shape (D : nat) (r : list R) :
  (1 <= D)%nat ->
  inside_interval (0 :: replicate (D - 1) 0.5) (1 :: replicate (D - 1) 0.5) r ->
  exists t xs,
    r = t :: xs /\ length xs = (D - 1)%nat /\
    np_sum (sq_diffs (replicate (D - 1) 0.5) xs) <= t * t /\
    np_sum (sq_diffs xs (replicate (D - 1) 0.5)) <= (1 - t) * (1 - t).
Proof.
  intros HD (s1 & s2 & H1 & Hs1 & H2 & Hs2).
  destruct (decide (length (0 :: replicate (D - 1) 0.5) = length r)) as [Hlen|Hlen].
  2:{ rewrite minkowski_mismatch in H1 by done. discriminate. }
  destruct r as [|t xs]; [done|]. cbn [length] in Hlen. rewrite length_replicate in Hlen.
  rewrite minkowski_cons in H1, H2 by (rewrite length_replicate; lia).
  injection H1 as <-. injection H2 as <-.
  exists t, xs. split; [done|]. split; [lia|]. split; lra.
Qed.

(** X21: whenever the scatter method returns, every row has [D] coordinates
    and lies in the double cone between the two end points: each spatial
    coordinate [x] of a row with time coordinate [t] has [|x - 0.5| <= |t|]
    and [|x - 0.5| <= |1 - t|]. *)
Theorem X21_scatter_rows_in_double_cone (fuel N D : nat) (fix_ends : bool)
    (g g' : rng) (Rm : list (list R)) :
  (1 <= D)%nat ->
  CausalSet.minkowski_interval fuel N D fix_ends "scatter" g = (Return Rm, g') ->
  forall r, r ∈ Rm ->
    length r = D /\
    forall t k x, r !! 0%nat = Some t -> r !! (S k) = Some x ->
      Rabs (x - 0.5) <= Rabs t /\ Rabs (x - 0.5) <= Rabs (1 - t).
Proof.
  intros HD Hrun r Hr.
  unfold CausalSet.minkowski_interval in Hrun. cbn [String.eqb Ascii.eqb Bool.eqb] in Hrun.
  destruct (scatter_rows_inside _ _ _ _ _ _ _ HD Hrun) as [_ Hin].
  destruct (inside_interval_shape D r HD (Hin r Hr)) as (t & xs & -> & Hlen & Ha & Hb).
  split; [simpl; lia|].
  intros t' k x [= <-] Hx. cbn [lookup list_lookup] in Hx.
  assert (Hhalf : replicate (D - 1) 0.5 !! k = Some 0.5).
  { apply lookup_replicate_2. apply lookup_lt_Some in Hx. lia. }
  pose proof (sq_diffs_entry_le _ _ k _ _ Hhalf Hx) as H1.
  pose proof (sq_diffs_entry_le _ _ k _ _ Hx Hhalf) as H2.
  split; apply Rsqr_le_abs_0; unfold Rsqr; lra.
Qed.

Lemma X21_scatter_rows_in_double_cone_witness :
  exists g',
    CausalSet.minkowski_interval 2 3 2 true "scatter" zeros_then_halves
    = (Return [[0; 0.5]; [1; 0.5]; [0.5; 0.5]], g') /\
    forall r, r ∈ [[0; 0.5]; [1; 0.5]; [0.5; 0.5]] ->
      length r = 2%nat /\
      forall t k x, r !! 0%nat = Some t -> r !! (S k) = Some x ->
        Rabs (x - 0.5) <= Rabs t /\ Rabs (x - 0.5) <= Rabs (1 - t).
Proof.
  destruct scatter_run_with_rejection as [g' Hrun]. exists g'. split; [exact Hrun|].
  apply (X21_scatter_rows_in_double_cone 2 3 2 true zeros_then_halves g' _);
    [lia | exact Hrun].
Defined.

Lemma map_np_divide_zero (l : list R) :
  map (fun v => np_divide v 0) l = replicate (length l) None.
Proof.
  induction l as [|v l IH]; [done|]. cbn [map length replicate]. rewrite IH.
  unfold np_divide. destruct (Req_dec_T 0 0); [done|lra].
Qed.

Lemma sq_norm_zero (l : list R) : Forall (fun v => v = 0) l -> sq_norm l = 0.
Proof.
  induction 1 as [|v l -> _ IH]; [done|]. rewrite sq_norm_cons, IH. lra.
Qed.

(** X22: [sphere_surface_cartesian(N, D)] always returns an N x (D+1)
    matrix; a row whose [D+1] normal draws are all zero is divided by a zero
    norm and comes out as [D+1] [nan] entries. *)
Theorem X22_sphere_surface_shape_and_zero_rows (N D : nat) (g : rng) :
  exists M g',
    CausalSet.sphere_surface_cartesian N D g = (Return M, g') /\
    length M = N /\
    forall i row, M !! i = Some row ->
      length row = (D + 1)%nat /\
      ((forall j, (j <= D)%nat -> g (i * (D + 1) + j)%nat = 0) ->
       row = replicate (D + 1) None).
Proof.
  unfold CausalSet.sphere_surface_cartesian, st_bind, st_ret, np_random_matrix.
  eexists _, _. split; [reflexivity|]. split.
  - rewrite length_zip_with, !length_map, length_seq. lia.
  - intros i row Hrow. rewrite lookup_zip_with in Hrow.
    rewrite !list_lookup_fmap in Hrow.
    destruct (seq 0 N !! i) as [i'|] eqn:Hi; [|done].
    apply lookup_seq in Hi as [-> Hi]. cbn in Hrow. injection Hrow as <-.
    split; [now rewrite !length_map, length_seq|].
    intros Hzero. rewrite zip_with_self.
    set (draws := map _ (seq 0 (D + 1))).
    change (foldr Rplus 0 (map (fun v => v * v) draws)) with (sq_norm draws).
    rewrite sq_norm_zero.
    + rewrite sqrt_0, map_np_divide_zero. unfold draws.
      now rewrite length_map, length_seq.
    + unfold draws. apply Forall_forall. intros v Hv.
      apply list_elem_of_fmap in Hv as (j & -> & Hj). apply elem_of_seq in Hj.
      apply Hzero. lia.
Qed.

Lemma sq_norm_recentred (xs : list R) :
  sq_norm (map (fun v => v - 0.5) xs)
  = np_sum (sq_diffs (replicate (length xs) 0.5) xs).
Proof.
  induction xs as [|x xs IH]; [reflexivity|].
  cbn [map length replicate]. rewrite sq_norm_cons, sq_diffs_cons, IH. lra.
Qed.

(** A row of a batch of [de_sitter_interval_scatter]: a point of the
    Minkowski interval with its spatial coordinates recentred. *)
Lemma recentred_row_in_cone (D : nat) (row : list R) :
  (1 <= D)%nat ->
  inside_interval (0 :: replicate (D - 1) 0.5) (1 :: replicate (D - 1) 0.5) row ->
  let r := take 1 row ++ map (fun v => v - 0.5) (drop 1 row) in
  length r = D /\ exists t xs, r = t :: xs /\ sq_norm xs <= t * t.
Proof.
  intros HD Hin.
  destruct (inside_interval_shape D row HD Hin) as (t & xs & -> & Hlen & Ha & _).
  cbn [take drop app]. rewrite take_0, drop_0. cbn [app]. split.
  - cbn [length]. rewrite length_map. lia.
  - exists t, (map (fun v => v - 0.5) xs). split; [done|].
    rewrite sq_norm_recentred, Hlen. exact Ha.
Qed.

Lemma de_sitter_batch_rows (fuel N D : nat) (KT2 : R) (fix_ends : bool)
    (g g' : rng) (B : list (list R)) :
  (1 <= D)%nat ->
  CausalSet.de_sitter_batch fuel N D KT2 fix_ends g = (Return B, g') ->
  Forall (fun r => length r = D /\ exists t xs, r = t :: xs /\ sq_norm xs <= t * t) B.
Proof.
  intros HD. unfold CausalSet.de_sitter_batch, CausalSet.minkowski_interval.
  cbn [String.eqb Ascii.eqb Bool.eqb]. unfold st_bind at 1.
  destruct (CausalSet.minkowski_interval_scatter fuel N D fix_ends g)
    as [[Rm| |] g1] eqn:Hscatter; try discriminate.
  destruct (scatter_rows_inside _ _ _ _ _ _ _ HD Hscatter) as [_ Hin].
  unfold st_bind at 1, np_random_array at 1. unfold st_bind at 1, lift at 1.
  destruct (comprehension _ _) as [S| |]; try discriminate.
  unfold st_ret. intros [= <- _].
  apply Forall_forall. intros r Hr.
  apply list_elem_of_fmap in Hr as ([r' keep] & -> & Hr).
  apply list_elem_of_filter in Hr as [_ Hr]. apply elem_of_zip_l in Hr. cbn [fst] in *.
  apply list_elem_of_fmap in Hr as (row & -> & Hrow).
  apply recentred_row_in_cone; [done|]. now apply Hin.
Qed.

Lemma de_sitter_fill_rows (fuel N D : nat) (KT2 : R) (fix_ends : bool)
    (g g' : rng) (Z Z' : list (list R)) :
  (1 <= D)%nat ->
  Forall (fun r => length r = D /\ exists t xs, r = t :: xs /\ sq_norm xs <= t * t) Z ->
  CausalSet.de_sitter_fill fuel N D KT2 fix_ends Z g = (Return Z', g') ->
  (N <= length Z')%nat /\
  Forall (fun r => length r = D /\ exists t xs, r = t :: xs /\ sq_norm xs <= t * t) Z'.
Proof.
  intros HD. revert Z g. induction fuel as [|fuel IH]; intros Z g HZ;
    cbn [CausalSet.de_sitter_fill]; [discriminate|].
  case_decide as Hlen.
  - unfold st_bind at 1.
    destruct (CausalSet.de_sitter_batch (S fuel) N D KT2 fix_ends g)
      as [[B| |] g1] eqn:Hbatch; try discriminate.
    apply de_sitter_batch_rows in Hbatch; [|done].
    apply IH. now apply Forall_app.
  - unfold st_ret. intros [= <- _]. split; [lia | done].
Qed.


(** A run of [de_sitter_interval] that returns: one point in one dimension,
    with a generator that always yields [0.5]; the point [(0.5)] is in the
    interval and passes the rejection test ([1 < 8/7]). *)
Lemma de_sitter_run_accepting :
  exists g',
    CausalSet.de_sitter_interval 2 1 1 2 false "scatter" (fun _ => 0.5)
    = (Return [[0.5]], g').
Proof.
  eexists. unfold CausalSet.de_sitter_interval. cbn [String.eqb Ascii.eqb Bool.eqb].
  unfold CausalSet.de_sitter_interval_scatter.
  destruct (Rlt_dec 0 2) as [_|H]; [|lra]. destruct (Rlt_dec 2 4) as [_|H]; [|lra].
  cbv -[Rgt_dec Rlt_dec Rplus Rminus Rmult Ropp Rdiv IZR Rinv].
  destruct (Rgt_dec _ 0) as [H|_]; [lra|].
  destruct (Rgt_dec _ 0) as [H|_]; [lra|].
  match goal with |- context [Rlt_dec ?a ?b] => destruct (Rlt_dec a b) as [Hacc|Hrej] end.
  - reflexivity.
  - exfalso. apply Hrej.
    match goal with
    | |- ?a < ?b => replace a with 1 by (field; lra); replace b with (8 / 7) by (field; lra)
    end. lra.
Qed.


(** X24: asked for no point at all ([N = 0]) with a valid [KT2], the scatter
    method of [de_sitter_interval] draws nothing: it returns the empty matrix,
    or raises [IndexError] when [fix_ends] asks to set rows that do not
    exist. *)
Theorem X24_de_sitter_interval_no_points (fuel D : nat) (KT2 : R) (fix_ends : bool)
    (g : rng) :
  0 < KT2 < 4 ->
  CausalSet.de_sitter_interval (S fuel) 0 D KT2 fix_ends "scatter" g
  = (if fix_ends then Raise IndexError else Return [], g).
Proof.
  intros [Hlo Hhi]. unfold CausalSet.de_sitter_interval.
  cbn [String.eqb Ascii.eqb Bool.eqb]. unfold CausalSet.de_sitter_interval_scatter.
  destruct (Rlt_dec 0 KT2); [|lra]. destruct (Rlt_dec KT2 4); [|lra].
  destruct fix_ends; reflexivity.
Qed.

Lemma X24_de_sitter_interval_no_points_witness :
  CausalSet.de_sitter_interval (S 0) 0 3 1 true "scatter" (fun _ => 0)
  = (if true then Raise IndexError else Return [], fun _ => 0).
Proof.
  apply (X24_de_sitter_interval_no_points 0 3 1 true (fun _ => 0)). lra.
Defined.

(** * The matrix of separations *)

Lemma for_loop_app {A S} (body : A -> S -> outcome S) (l1 l2 : list A) (acc : S) :
  for_loop body (l1 ++ l2) acc
  = (acc' <- for_loop body l1 acc ;; for_loop body l2 acc').
Proof.
  revert acc. induction l1 as [|a l1 IH]; intros acc; cbn [app for_loop bind]; [done|].
  destruct (body a acc) as [acc1| |]; cbn [bind]; [apply IH | done | done].
Qed.

Section SeparationLoops.

(** The loops of [sq_separations] for a metric that returns [v i j] on the
    rows [i] and [j]. *)
Variables (Rm : list (list R)) (metric : list R -> list R -> outcome R)
          (v : nat -> nat -> R).
Hypothesis Hmetric : forall i j Ri Rj,
  Rm !! i = Some Ri -> Rm !! j = Some Rj -> metric Ri Rj = Return (v i j).

Lemma sq_separations_row_loop (i k : nat) (S : list (list R)) (Si : list R) :
  (i < length Rm)%nat -> S !! i = Some Si -> length Si = length Rm ->
  (k <= length Rm)%nat ->
  for_loop (Metrics.sq_separations_entry Rm metric i) (seq 0 k) S
  = Return (<[i := map (v i) (seq 0 k) ++ drop k Si]> S).
Proof.
  intros Hi HSi Hlen. induction k as [|k IH]; intros Hk.
  - cbn [seq for_loop map app]. rewrite drop_0. now rewrite list_insert_id.
  - rewrite seq_S, for_loop_app, IH by lia. cbn [bind plus for_loop].
    unfold Metrics.sq_separations_entry.
    destruct (lookup_lt_is_Some_2 Rm i Hi) as [Ri HRi].
    destruct (lookup_lt_is_Some_2 Rm k) as [Rk HRk]; [lia|].
    destruct (lookup_lt_is_Some_2 Si k) as [x Hx]; [lia|].
    rewrite (getitem_Some _ _ _ HRi), (getitem_Some _ _ _ HRk). cbn [bind].
    rewrite (Hmetric i k Ri Rk HRi HRk). cbn [bind].
    assert (HiS : (i < length S)%nat) by now apply lookup_lt_Some in HSi.
    rewrite (getitem_Some _ _ (map (v i) (seq 0 k) ++ drop k Si))
      by (now apply list_lookup_insert_eq).
    cbn [bind]. rewrite (drop_S _ _ _ Hx).
    rewrite setitem_lt by (rewrite length_app, length_map, length_seq; simpl; lia).
    cbn [bind].
    rewrite insert_middle_length by (now rewrite length_map, length_seq).
    rewrite setitem_lt by (now rewrite length_insert).
    rewrite list_insert_insert_eq. do 2 f_equal.
    rewrite map_app. cbn [map]. now rewrite <- app_assoc.
Qed.

Lemma sq_separations_loop (k : nat) :
  (k <= length Rm)%nat ->
  for_loop (fun i S =>
              for_loop (Metrics.sq_separations_entry Rm metric i)
                       (range 0 (length Rm)) S)
           (seq 0 k) (replicate (length Rm) (replicate (length Rm) 0))
  = Return (map (fun i => map (v i) (seq 0 (length Rm))) (seq 0 k)
            ++ replicate (length Rm - k) (replicate (length Rm) 0)).
Proof.
  induction k as [|k IH]; intros Hk.
  - cbn [seq for_loop map app]. now rewrite Nat.sub_0_r.
  - rewrite seq_S, for_loop_app, IH by lia. cbn [bind plus for_loop].
    unfold range. rewrite Nat.sub_0_r.
    replace (length Rm - k)%nat with (S (length Rm - S k)) by lia.
    cbn [replicate].
    rewrite (sq_separations_row_loop k (length Rm) _ (replicate (length Rm) 0)); try lia.
    + rewrite drop_ge, app_nil_r by (rewrite length_replicate; lia).
      rewrite insert_middle_length by (now rewrite length_map, length_seq).
      f_equal. rewrite map_app. cbn [map]. now rewrite <- app_assoc.
    + apply lookup_middle_length. now rewrite length_map, length_seq.
    + apply length_replicate.
Qed.

Lemma sq_separations_entries :
  Metrics.sq_separations Rm metric
  = Return (map (fun i => map (v i) (seq 0 (length Rm))) (seq 0 (length Rm))).
Proof.
  unfold Metrics.sq_separations. unfold range at 2. rewrite Nat.sub_0_r.
  rewrite sq_separations_loop by lia.
  now rewrite Nat.sub_diag, app_nil_r.
Qed.

End SeparationLoops.

Lemma separation_matrix_lookup (N : nat) (v : nat -> nat -> R) (i j : nat) :
  (i < N)%nat -> (j < N)%nat ->
  map (fun i => map (v i) (seq 0 N)) (seq 0 N) !! i = Some (map (v i) (seq 0 N)) /\
  map (v i) (seq 0 N) !! j = Some (v i j).
Proof.
  intros Hi Hj. split.
  - rewrite list_lookup_fmap, lookup_seq_lt by done. reflexivity.
  - rewrite list_lookup_fmap, lookup_seq_lt by done. reflexivity.
Qed.

(** X25: when the metric returns on every pair of rows of [Rm],
    [sq_separations] returns a square matrix with as many rows as [Rm],
    whose entry [(i, j)] is what the metric returns on the rows [i] and
    [j] (self-pairs included). *)
Theorem X25_sq_separations_entries (Rm : list (list R))
    (metric : list R -> list R -> outcome R) :
  (forall Ri Rj, Ri ∈ Rm -> Rj ∈ Rm -> exists x, metric Ri Rj = Return x) ->
  exists S,
    Metrics.sq_separations Rm metric = Return S /\
    length S = length Rm /\
    forall i j Ri Rj, Rm !! i = Some Ri -> Rm !! j = Some Rj ->
      exists Si x,
        S !! i = Some Si /\ length Si = length Rm /\
        Si !! j = Some x /\ metric Ri Rj = Return x.
Proof.
  intros Htotal.
  set (v := fun i j =>
              match Rm !! i, Rm !! j with
              | Some Ri, Some Rj =>
                  match metric Ri Rj with Return x => x | _ => 0 end
              | _, _ => 0
              end).
  assert (Hv : forall i j Ri Rj,
            Rm !! i = Some Ri -> Rm !! j = Some Rj -> metric Ri Rj = Return (v i j)).
  { intros i j Ri Rj Hi Hj. unfold v. rewrite Hi, Hj.
    destruct (Htotal Ri Rj) as [x Hx].
    - apply list_elem_of_lookup. eauto.
    - apply list_elem_of_lookup. eauto.
    - now rewrite Hx. }
  eexists. split; [apply (sq_separations_entries Rm metric v Hv)|].
  split; [now rewrite length_map, length_seq|].
  intros i j Ri Rj Hi Hj.
  destruct (separation_matrix_lookup (length Rm) v i j) as [Hrow Hentry].
  { now apply lookup_lt_Some in Hi. }
  { now apply lookup_lt_Some in Hj. }
  exists (map (v i) (seq 0 (length Rm))), (v i j).
  split; [done|]. split; [now rewrite length_map, length_seq|].
  split; [done|]. now apply Hv.
Qed.

Lemma X25_sq_separations_entries_witness :
  exists S,
    Metrics.sq_separations [[0; 0]; [1; 2]] Metrics.euclidean = Return S /\
    length S = length [[0; 0]; [1; 2]] /\
    forall i j Ri Rj, [[0; 0]; [1; 2]] !! i = Some Ri -> [[0; 0]; [1; 2]] !! j = Some Rj ->
      exists Si x,
        S !! i = Some Si /\ length Si = length [[0; 0]; [1; 2]] /\
        Si !! j = Some x /\ Metrics.euclidean Ri Rj = Return x.
Proof.
  apply (X25_sq_separations_entries [[0; 0]; [1; 2]] Metrics.euclidean).
  intros Ri Rj Hi Hj. eexists. apply euclidean_eq.
  repeat (apply elem_of_cons in Hi as [->|Hi]); [| |inversion Hi];
    repeat (apply elem_of_cons in Hj as [->|Hj]); try reflexivity; inversion Hj.
Defined.

Lemma minkowski_rows (D : nat) (Rm : list (list R)) (i j : nat) (Ri Rj : list R) :
  has_columns D Rm -> (1 <= D)%nat -> Rm !! i = Some Ri -> Rm !! j = Some Rj ->
  exists ti ri tj rj,
    Ri = ti :: ri /\ Rj = tj :: rj /\
    Metrics.minkowski Ri Rj
    = Return (np_sum (sq_diffs ri rj) - (ti - tj) * (ti - tj)).
Proof.
  intros Hcols HD Hi Hj.
  apply (has_columns_lookup D) in Hi as Hli; [|done].
  apply (has_columns_lookup D) in Hj as Hlj; [|done].
  destruct Ri as [|ti ri]; [simpl in Hli; lia|].
  destruct Rj as [|tj rj]; [simpl in Hlj; lia|].
  exists ti, ri, tj, rj. split; [done|]. split; [done|].
  apply minkowski_cons. simpl in *. lia.
Qed.

(** X26: with the Minkowski metric on an N x D matrix with [D >= 1],
    [sq_separations] returns an N x N matrix that is symmetric and has a
    zero diagonal. *)
Theorem X26_sq_separations_minkowski_symmetric (D : nat) (Rm : list (list R)) :
  has_columns D Rm -> (1 <= D)%nat ->
  exists S,
    Metrics.sq_separations Rm Metrics.minkowski = Return S /\
    length S = length Rm /\
    forall i j, (i < length Rm)%nat -> (j < length Rm)%nat ->
      exists x,
        S !! i ≫= (fun Si => Si !! j) = Some x /\
        S !! j ≫= (fun Sj => Sj !! i) = Some x /\
        (i = j -> x = 0).
Proof.
  intros Hcols HD.
  set (v := fun i j =>
              match Rm !! i, Rm !! j with
              | Some (ti :: ri), Some (tj :: rj) =>
                  np_sum (sq_diffs ri rj) - (ti - tj) * (ti - tj)
              | _, _ => 0
              end).
  assert (Hv : forall i j Ri Rj,
            Rm !! i = Some Ri -> Rm !! j = Some Rj ->
            Metrics.minkowski Ri Rj = Return (v i j)).
  { intros i j Ri Rj Hi Hj.
    destruct (minkowski_rows D Rm i j Ri Rj Hcols HD Hi Hj)
      as (ti & ri & tj & rj & -> & -> & Hm).
    unfold v. now rewrite Hi, Hj. }
  eexists. split; [apply (sq_separations_entries Rm Metrics.minkowski v Hv)|].
  split; [now rewrite length_map, length_seq|].
  intros i j Hi Hj. exists (v i j).
  destruct (separation_matrix_lookup (length Rm) v i j Hi Hj) as [Hrow Hentry].
  destruct (separation_matrix_lookup (length Rm) v j i Hj Hi) as [Hrow' Hentry'].
  rewrite Hrow, Hrow'. cbn [mbind option_bind]. split; [done|].
  assert (Hsym : v j i = v i j).
  { unfold v. destruct (Rm !! i) as [[|ti ri]|], (Rm !! j) as [[|tj rj]|]; try done.
    rewrite sq_diffs_comm. lra. }
  split; [now rewrite Hentry', Hsym|].
  intros <-. unfold v. destruct (Rm !! i) as [[|ti ri]|]; try done.
  rewrite np_sum_sq_diffs_diag. lra.
Qed.

Lemma X26_sq_separations_minkowski_symmetric_witness :
  exists S,
    Metrics.sq_separations [[0; 0]; [1; 2]; [3; 1]] Metrics.minkowski = Return S /\
    length S = length [[0; 0]; [1; 2]; [3; 1]] /\
    forall i j, (i < length [[0; 0]; [1; 2]; [3; 1]])%nat ->
                (j < length [[0; 0]; [1; 2]; [3; 1]])%nat ->
      exists x,
        S !! i ≫= (fun Si => Si !! j) = Some x /\
        S !! j ≫= (fun Sj => Sj !! i) = Some x /\
        (i = j -> x = 0).
Proof.
  apply (X26_sq_separations_minkowski_symmetric 2 [[0; 0]; [1; 2]; [3; 1]]).
  - repeat constructor.
  - lia.
Defined.

(** X27: [sq_separations] stops at the first exception of the metric: when
    the metric raises on the first row paired with itself, the call raises
    the same exception (as [minkowski] does on rows without coordinates). *)
Theorem X27_sq_separations_propagates (R0 : list R) (Rm : list (list R))
    (metric : list R -> list R -> outcome R) (e : exn) :
  metric R0 R0 = Raise e ->
  Metrics.sq_separations (R0 :: Rm) metric = Raise e.
Proof.
  intros Hraise. unfold Metrics.sq_separations, range. cbn [length Nat.sub seq for_loop].
  unfold Metrics.sq_separations_entry at 1.
  cbn [getitem lookup list_lookup bind]. rewrite Hraise. reflexivity.
Qed.

Lemma X27_sq_separations_propagates_witness :
  Metrics.sq_separations ([] :: [[]]) Metrics.minkowski = Raise IndexError.
Proof.
  apply (X27_sq_separations_propagates [] [[]] Metrics.minkowski IndexError).
  reflexivity.
Defined.

(** * The hyperbolic disk *)

Lemma cosh_exp (t : R) : cosh t = (exp t + / exp t) / 2.
Proof. unfold cosh. now rewrite exp_Ropp. Qed.

Lemma exp_ge_1 (t : R) : 0 <= t -> 1 <= exp t.
Proof. intros Ht. pose proof (exp_ineq1_le t). lra. Qed.

Lemma inv_sum_bounds (p : R) : 0 < p -> 2 <= p + / p.
Proof.
  intros Hp. assert (Hinv : 0 < / p) by now apply Rinv_0_lt_compat.
  assert (Hone : p * / p = 1) by (field; lra).
  pose proof (Rle_0_sqr (p - 1)) as Hsq. unfold Rsqr in Hsq. nra.
Qed.

Lemma cosh_ge_1 (t : R) : 1 <= cosh t.
Proof. rewrite cosh_exp. pose proof (inv_sum_bounds (exp t) (exp_pos t)). lra. Qed.

Lemma cosh_increasing (s t : R) : 0 <= s -> s < t -> cosh s < cosh t.
Proof.
  intros Hs Hst. rewrite !cosh_exp.
  pose proof (exp_ge_1 s Hs) as Hp. pose proof (exp_increasing s t Hst) as Hpq.
  set (p := exp s) in *. set (q := exp t) in *. clearbody p q.
  assert (Hip : 0 < / p) by (apply Rinv_0_lt_compat; lra).
  assert (Hiq : 0 < / q) by (apply Rinv_0_lt_compat; lra).
  assert (H1 : p * / p = 1) by (field; lra).
  assert (H2 : q * / q = 1) by (field; lra).
  assert (Hdiff : / p - / q = (q - p) * (/ p * / q)) by (field; lra).
  assert (Hsmall : / p * / q < 1) by nra.
  nra.
Qed.

Lemma cosh_arccosh (y : R) : 1 <= y -> cosh (ln (y + sqrt (y * y - 1))) = y.
Proof.
  intros Hy. assert (Hrad : 0 <= y * y - 1) by nra.
  pose proof (sqrt_pos (y * y - 1)) as Hs0.
  pose proof (sqrt_sqrt _ Hrad) as Hs.
  set (s := sqrt (y * y - 1)) in *. clearbody s.
  rewrite cosh_exp, exp_ln by lra.
  assert (Hinv : / (y + s) = y - s).
  { apply Rmult_eq_reg_l with (y + s); [|lra]. rewrite Rinv_r by lra. nra. }
  rewrite Hinv. lra.
Qed.

Lemma arccosh_nonneg (y : R) : 1 <= y -> 0 <= ln (y + sqrt (y * y - 1)).
Proof.
  intros Hy. pose proof (sqrt_pos (y * y - 1)) as Hs0. rewrite <- ln_1.
  destruct (Req_dec_T (y + sqrt (y * y - 1)) 1) as [->|Hne]; [lra|].
  left. apply ln_increasing; lra.
Qed.

Lemma arccosh_le (y T : R) :
  1 <= y -> 0 <= T -> y <= cosh T -> ln (y + sqrt (y * y - 1)) <= T.
Proof.
  intros Hy HT Hle. destruct (Rle_dec (ln (y + sqrt (y * y - 1))) T) as [|Hgt]; [done|].
  exfalso. pose proof (cosh_increasing T (ln (y + sqrt (y * y - 1))) HT ltac:(lra)) as H.
  rewrite cosh_arccosh in H by done. lra.
Qed.

Lemma comprehension_map {A B C} (f : B -> outcome C) (h : A -> B) (k : A -> C)
    (l : list A) :
  (forall x, x ∈ l -> f (h x) = Return (k x)) ->
  comprehension f (map h l) = Return (map k l).
Proof.
  induction l as [|x l IH]; intros Hf; [done|].
  cbn [map comprehension]. rewrite Hf by (left).
  cbn [bind]. rewrite IH; [done|]. intros y Hy. apply Hf. now right.
Qed.

(** What [hyperbolic_disk] computes from the two draws of row [i]. *)
Lemma hyperbolic_disk_rows (N : nat) (Rd a : R) (g : rng) :
  exists g',
    CausalSet.hyperbolic_disk N Rd a g
    = (Return (map (fun i =>
                 [fdiv (np_arccosh (g (i * 2 + 0)%nat * (cosh (Rd * a) - 1) + 1))
                       (Some a);
                  Some (g (i * 2 + 1)%nat * (2 * PI))])
               (seq 0 N)), g').
Proof.
  eexists. unfold CausalSet.hyperbolic_disk, st_bind, np_random_matrix, lift.
  rewrite map_map. cbn [map seq].
  unfold update_column.
  rewrite (comprehension_map _ _
             (fun i => [Some (g (i * 2 + 0)%nat); Some (g (i * 2 + 1)%nat * (2 * PI))]))
    by reflexivity.
  rewrite (comprehension_map _ _
             (fun i =>
                [fdiv (np_arccosh (g (i * 2 + 0)%nat * (cosh (Rd * a) - 1) + 1)) (Some a);
                 Some (g (i * 2 + 1)%nat * (2 * PI))]))
    by reflexivity.
  reflexivity.
Qed.



(** * Angular samples of the sphere *)

Lemma np_sum_nan_real (l : list R) : np_sum_nan (map Some l) = Some (np_sum l).
Proof.
  unfold np_sum_nan. induction l as [|v l IH]; [reflexivity|].
  cbn [map foldr]. rewrite IH. reflexivity.
Qed.

Lemma drop_map {A B} (f : A -> B) (n : nat) (l : list A) :
  drop n (map f l) = map f (drop n l).
Proof.
  revert n. induction l as [|a l IH]; intros [|n]; cbn [map drop]; try done.
Qed.

Lemma norm_from_nan_real (x : list R) (i : nat) :
  Metrics.norm_from_nan (map Some x) i = Some (Metrics.norm_from x i).
Proof.
  unfold Metrics.norm_from_nan, Metrics.norm_from.
  rewrite drop_map, map_map.
  rewrite <- (map_map (fun v => v * v) Some), np_sum_nan_real.
  cbn [np_sqrt]. fold (sq_norm (drop i x)).
  pose proof (sq_norm_nonneg (drop i x)). destruct (Rlt_dec _ 0); [lra|done].
Qed.

Lemma cartesian_to_angular_nan_step_real (x : list R) (i : nat) (acc : list npfloat) :
  Metrics.cartesian_to_angular_nan_step (map Some x) i acc
  = Metrics.cartesian_to_angular_step x i acc.
Proof.
  unfold Metrics.cartesian_to_angular_nan_step, Metrics.cartesian_to_angular_step,
    getitem.
  rewrite list_lookup_fmap. destruct (x !! i) as [ai|]; [|done].
  cbn [fmap option_fmap option_map bind]. now rewrite norm_from_nan_real.
Qed.

Lemma for_loop_ext {A S} (f h : A -> S -> outcome S) (l : list A) (acc : S) :
  (forall a s, f a s = h a s) -> for_loop f l acc = for_loop h l acc.
Proof.
  intros Hfh. revert acc. induction l as [|a l IH]; intros acc; [done|].
  cbn [for_loop]. rewrite Hfh. destruct (h a acc); cbn [bind]; [apply IH|done|done].
Qed.

Lemma getlast_map {A B} (f : A -> B) (l : list A) :
  getlast (map f l) = (v <- getlast l ;; Return (f v)).
Proof.
  unfold getlast, getitem. rewrite length_map.
  destruct (length l) as [|n]; [done|].
  rewrite list_lookup_fmap. now destruct (l !! n).
Qed.

(** On an array without [nan], the two embeddings of [cartesian_to_angular]
    agree. *)
Lemma cartesian_to_angular_nan_real (x : list R) :
  Metrics.cartesian_to_angular_nan (map Some x) = Metrics.cartesian_to_angular x.
Proof.
  unfold Metrics.cartesian_to_angular_nan, Metrics.cartesian_to_angular.
  rewrite length_map. destruct (length x) as [|n] eqn:Hlen; [done|].
  rewrite (for_loop_ext _ _ _ _ (cartesian_to_angular_nan_step_real x)).
  destruct (for_loop _ _ _) as [angles| |]; cbn [bind]; try done.
  rewrite getlast_map. destruct (getlast x) as [al| |]; cbn [bind]; try done.
  now destruct (Rlt_dec al 0).
Qed.

(** With at least two coordinates, [cartesian_to_angular] returns, with one
    angle fewer than the coordinates (some may be [nan]). *)
Lemma cartesian_to_angular_returns (x : list R) :
  (2 <= length x)%nat ->
  exists angles,
    Metrics.cartesian_to_angular x = Return angles /\
    length angles = (length x - 1)%nat.
Proof.
  intros Hlen. destruct x as [|x0 [|x1 xs]]; simpl in Hlen; try lia.
  unfold Metrics.cartesian_to_angular. cbn [length]. unfold range. cbn [Nat.sub].
  pose proof (cartesian_to_angular_loop (x0 :: x1 :: xs) (S (length xs)) 0 [] eq_refl)
    as Hloop.
  cbn [app length] in Hloop. rewrite Hloop by lia. cbn [bind].
  rewrite getlast_last. cbn [bind].
  set (angles := map _ (seq 0 (S (length xs)))).
  assert (Hangles : length angles = S (length xs)).
  { unfold angles. now rewrite length_map, length_seq. }
  destruct (Rlt_dec _ 0).
  - unfold getlast. rewrite Hangles.
    destruct (lookup_lt_is_Some_2 angles (length xs)) as [xl Hxl]; [lia|].
    rewrite (getitem_Some _ _ _ Hxl). cbn [bind].
    rewrite setitem_lt by lia. eexists. split; [reflexivity|].
    rewrite length_insert. lia.
  - exists angles. split; [done | lia].
Qed.

(** A row of [nan] comes out of [cartesian_to_angular] as a row of [nan]. *)
Lemma cartesian_to_angular_nan_row (D : nat) :
  Metrics.cartesian_to_angular_nan (replicate (D + 1) None) = Return (replicate D None).
Proof.
  unfold Metrics.cartesian_to_angular_nan. rewrite length_replicate.
  replace (D + 1)%nat with (S D) by lia. cbn [Nat.sub]. rewrite Nat.sub_0_r.
  unfold range. rewrite Nat.sub_0_r.
  set (row := replicate (S D) (@None R)).
  assert (Hrow : forall k, (k < S D)%nat -> row !! k = Some None).
  { intros k Hk. apply lookup_replicate_2. lia. }
  assert (Hlen : length row = S D) by apply length_replicate.
  clearbody row.
  assert (Hloop : forall n k (pre : list npfloat),
            length pre = k -> (k + n <= S D)%nat ->
            for_loop (Metrics.cartesian_to_angular_nan_step row)
                     (seq k n) (pre ++ replicate n (Some 0))
            = Return (pre ++ replicate n None)).
  { induction n as [|n IH]; intros k pre Hpre Hk; [now rewrite !app_nil_r|].
    cbn [seq for_loop replicate]. unfold Metrics.cartesian_to_angular_nan_step at 1.
    unfold npfloat in *.
    rewrite (getitem_Some row k None) by (apply Hrow; lia).
    cbn [bind fdiv np_arccos].
    rewrite setitem_lt by (rewrite length_app; cbn [length]; lia).
    cbn [bind]. rewrite insert_middle_length by done.
    replace (pre ++ None :: replicate n (Some 0))
      with ((pre ++ [None]) ++ replicate n (Some 0)) by now rewrite <- app_assoc.
    rewrite IH by (rewrite ?length_app; simpl; lia). now rewrite <- app_assoc. }
  pose proof (Hloop D 0%nat [] eq_refl ltac:(lia)) as H. cbn [app] in H.
  rewrite H. cbn [bind]. unfold getlast. unfold npfloat in *. rewrite Hlen.
  cbn [Nat.sub]. rewrite ?Nat.sub_0_r.
  rewrite (getitem_Some row D None) by (apply Hrow; lia).
  reflexivity.
Qed.

Lemma iadd_zeros (D : nat) (angles : list npfloat) :
  length angles = D ->
  iadd (replicate D (Some 0)) angles = Return angles.
Proof.
  intros Hlen. unfold iadd. rewrite length_replicate, decide_True by done.
  f_equal. subst D. induction angles as [|t angles IH]; [done|].
  cbn [length replicate zip_with]. rewrite IH. f_equal.
  destruct t as [t|]; [|done]. cbn [fadd]. f_equal. lra.
Qed.

Section AngularLoop.

(** The loop of [sphere_surface_angular] when the conversion of row [i] of
    the Cartesian sample [X] returns the [D] angles [ang i]. *)
Variables (N D : nat) (X : list (list npfloat)) (ang : nat -> list npfloat).
Hypothesis HX : length X = N.
Hypothesis Hang : forall i Xi, X !! i = Some Xi ->
  Metrics.cartesian_to_angular_nan Xi = Return (ang i) /\ length (ang i) = D.

Lemma sphere_surface_angular_loop (k : nat) :
  (k <= N)%nat ->
  for_loop
    (fun i Rm =>
       Xi <- getitem X i ;;
       angles <- Metrics.cartesian_to_angular_nan Xi ;;
       Ri <- getitem Rm i ;;
       Ri' <- iadd Ri angles ;;
       setitem Rm i Ri')
    (seq 0 k) (replicate N (replicate D (Some 0)))
  = Return (map ang (seq 0 k) ++ replicate (N - k) (replicate D (Some 0))).
Proof.
  induction k as [|k IH]; intros Hk.
  - cbn [seq for_loop map app]. now rewrite Nat.sub_0_r.
  - rewrite seq_S, for_loop_app, IH by lia. cbn [bind plus for_loop].
    destruct (lookup_lt_is_Some_2 X k) as [Xk HXk]; [lia|].
    destruct (Hang k Xk HXk) as [Hconv Hlen].
    rewrite (getitem_Some _ _ _ HXk). cbn [bind]. rewrite Hconv. cbn [bind].
    replace (N - k)%nat with (S (N - S k)) by lia. cbn [replicate].
    rewrite (getitem_Some _ _ (replicate D (Some 0)))
      by (apply lookup_middle_length; now rewrite length_map, length_seq).
    cbn [bind]. rewrite iadd_zeros by done. cbn [bind].
    rewrite setitem_lt
      by (rewrite length_app, length_map, length_seq; simpl; lia).
    rewrite insert_middle_length by (now rewrite length_map, length_seq).
    f_equal. rewrite map_app. cbn [map]. now rewrite <- app_assoc.
Qed.

End AngularLoop.

Lemma seq_last_two (D : nat) :
  (1 <= D)%nat -> seq 0 (D + 1) = seq 0 (D - 1) ++ [(D - 1)%nat; D].
Proof.
  intros HD. replace (D + 1)%nat with ((D - 1) + 2)%nat by lia.
  rewrite seq_app. cbn [seq plus]. do 3 f_equal. lia.
Qed.


(** A row of [sphere_surface_cartesian] is real, or [nan] throughout. *)
Lemma sphere_row_cases (draws : list R) (n : R) :
  map (fun v => np_divide v n) draws = map Some (map (fun v => v / n) draws) \/
  map (fun v => np_divide v n) draws = replicate (length draws) None.
Proof.
  destruct (Req_dec_T n 0) as [->|Hn].
  - right. apply map_np_divide_zero.
  - left. now apply map_np_divide.
Qed.

Lemma cartesian_to_angular_sphere_row (draws : list R) (n : R) (D : nat) :
  (1 <= D)%nat -> length draws = (D + 1)%nat ->
  exists angles,
    Metrics.cartesian_to_angular_nan (map (fun v => np_divide v n) draws) = Return angles /\
    length angles = D.
Proof.
  intros HD Hlen. destruct (sphere_row_cases draws n) as [-> | ->].
  - rewrite cartesian_to_angular_nan_real.
    destruct (cartesian_to_angular_returns (map (fun v => v / n) draws))
      as (angles & Hret & Hangles); [rewrite length_map; lia|].
    exists angles. split; [done|]. rewrite Hangles, length_map. lia.
  - rewrite Hlen, cartesian_to_angular_nan_row. eexists. split; [done|].
    apply length_replicate.
Qed.

Lemma zip_with_map_r {A B C} (f : A -> B -> C) (h : A -> B) (l : list A) :
  zip_with f l (map h l) = map (fun a => f a (h a)) l.
Proof. induction l as [|a l IH]; [done|]. cbn [map zip_with]. now rewrite IH. Qed.

(** The matrix of [sphere_surface_cartesian], row by row. *)
Lemma sphere_surface_cartesian_rows (N D : nat) (g : rng) :
  exists g',
    CausalSet.sphere_surface_cartesian N D g
    = (Return (map (fun i =>
                      let draws := map (fun j => g (i * (D + 1) + j)%nat) (seq 0 (D + 1)) in
                      map (fun v => np_divide v (sqrt (sq_norm draws))) draws)
                   (seq 0 N)), g').
Proof.
  unfold CausalSet.sphere_surface_cartesian, st_bind, st_ret, np_random_matrix.
  eexists. f_equal. f_equal.
  rewrite map_map, zip_with_map_r, map_map. apply map_ext. intros i.
  cbv zeta. now rewrite zip_with_self.
Qed.


